(** * DataTable: client-side sort, selection and pagination

    A shallow embedding of [src/components/DataTable/DataTable.tsx]:
    the sort comparator and the sorted view ([sortedData]), the header
    click handler ([handleSort]), the two selection handlers
    ([handleRowSelect], [handleSelectAll]), the row identity
    ([getRowKey]), the sort icon ([getSortIcon]), the cell content
    ([renderCell]) and the pagination block of the render function
    with its two buttons; and of the caller in [App.tsx], which cuts
    the collection into pages with [slice] and keeps the page number
    and the selected users.

    Conventions of the model.
    - A JavaScript number is an integer-valued number of the safe
      range, an element of [Z]; [NaN], the infinities and fractions are
      outside the model.
    - [String.prototype.localeCompare] depends on the host's collation
      and is an operation of the [Collator] class; [codepointCollator]
      is one instance (ordinal comparison of the characters).
    - [Array.prototype.sort] is a stable insertion sort that calls the
      comparator with the later element first.  The language leaves
      the result to the engine when the comparator is not a consistent
      order, and there the model speaks for itself only; on rows that
      the comparator orders strictly every sort computes the same list
      ([arraySort_unique]).
    - React state ([useState]) is the record [State]; a handler maps the
      state of the render it was created in to the next state, together
      with the arguments of the [onRowSelect] calls it made. *)

From Stdlib Require Import QArith Qround.
From stdpp Require Import gmap strings list fin_maps pretty sorting.

Local Open Scope Z_scope.

(** ** JavaScript values *)

Inductive JsValue : Type :=
  | VUndefined
  | VNull
  | VBool (b : bool)
  | VNum (n : Z)
  | VStr (s : string)
  | VObject (ref : nat).

#[global] Instance JsValue_eq_dec : EqDecision JsValue.
Proof. solve_decision. Defined.

Inductive JsType : Type :=
  | TUndefined | TObject | TBoolean | TNumber | TString.

#[global] Instance JsType_eq_dec : EqDecision JsType.
Proof. solve_decision. Defined.

(** [typeof v] *)
Definition typeof (v : JsValue) : JsType :=
  match v with
  | VUndefined => TUndefined
  | VNull => TObject
  | VBool _ => TBoolean
  | VNum _ => TNumber
  | VStr _ => TString
  | VObject _ => TObject
  end.

(** [a === b]: primitives by value, objects by reference. *)
Definition strictEq (a b : JsValue) : bool :=
  match a, b with
  | VUndefined, VUndefined => true
  | VNull, VNull => true
  | VBool x, VBool y => bool_decide (x = y)
  | VNum x, VNum y => bool_decide (x = y)
  | VStr x, VStr y => bool_decide (x = y)
  | VObject r, VObject r' => bool_decide (r = r')
  | _, _ => false
  end.

(** [String(v)]; an object is a plain one, without a [toString] of its own. *)
Definition toString (v : JsValue) : string :=
  match v with
  | VUndefined => "undefined"
  | VNull => "null"
  | VBool true => "true"
  | VBool false => "false"
  | VNum n => pretty n
  | VStr s => s
  | VObject _ => "[object Object]"
  end.

(** [v === null || v === undefined] *)
Definition isNullish (v : JsValue) : bool :=
  match v with
  | VNull | VUndefined => true
  | _ => false
  end.

(** ** Records, columns and the sort state *)

(** A record [T extends Record<string, any>]: reading a field that is
    not there yields [undefined]. *)
Abbreviation DataRecord := (gmap string JsValue).

Definition getField (r : DataRecord) (k : string) : JsValue :=
  default VUndefined (r !! k).

Record Column : Type := mkColumn {
  col_key : string;
  col_title : string;
  col_dataIndex : string;
  col_sortable : option bool
}.

Inductive Direction : Type := asc | desc.

#[global] Instance Direction_eq_dec : EqDecision Direction.
Proof. solve_decision. Defined.

Record SortState : Type := mkSortState {
  key : string;
  direction : Direction
}.

#[global] Instance SortState_eq_dec : EqDecision SortState.
Proof. solve_decision. Defined.

(** ** Collation *)

Class Collator : Type := localeCompare : string → string → Z.

Fixpoint codepointCompare (s t : string) : Z :=
  match s, t with
  | EmptyString, EmptyString => 0
  | EmptyString, String _ _ => -1
  | String _ _, EmptyString => 1
  | String a s', String b t' =>
      match (Ascii.N_of_ascii a ?= Ascii.N_of_ascii b)%N with
      | Lt => -1
      | Gt => 1
      | Eq => codepointCompare s' t'
      end
  end.

Definition codepointCollator : Collator := codepointCompare.

(** ** The comparator passed to [sort] (DataTable.tsx, lines 66-84) *)

Section Comparator.
Context {collator : Collator}.

(** The [comparison] variable: the ascending order of two values that
    are both neither [null] nor [undefined]. *)
Definition comparison (aValue bValue : JsValue) : Z :=
  match aValue, bValue with
  | VStr s, VStr t => localeCompare s t
  | VNum x, VNum y => x - y
  | _, _ => localeCompare (toString aValue) (toString bValue)
  end.

Definition compareValues (d : Direction) (aValue bValue : JsValue) : Z :=
  if strictEq aValue bValue then 0
  else if isNullish aValue then 1
  else if isNullish bValue then -1
  else
    let c := comparison aValue bValue in
    match d with asc => c | desc => - c end.

Definition compareRecords (st : SortState) (a b : DataRecord) : Z :=
  compareValues (direction st) (getField a (key st)) (getField b (key st)).
End Comparator.

(** ** [Array.prototype.sort] *)

Section ArraySort.
Context {A : Type} (cmp : A → A → Z).

(** Place [x] behind every element it does not compare below. *)
Fixpoint sortInsert (x : A) (l : list A) : list A :=
  match l with
  | [] => [x]
  | y :: l' => if decide (cmp x y < 0) then x :: y :: l' else y :: sortInsert x l'
  end.

(** [sortInto done rest]: [done] is the sorted prefix, [rest] the
    elements still to be inserted, left to right. *)
Fixpoint sortInto (done rest : list A) : list A :=
  match rest with
  | [] => done
  | x :: rest' => sortInto (sortInsert x done) rest'
  end.

Definition arraySort (l : list A) : list A := sortInto [] l.
End ArraySort.

(** ** The sorted view (DataTable.tsx, lines 63-85) *)

Section SortedView.
Context {collator : Collator}.

Definition sortedData (data : list DataRecord) (sortState : option SortState)
  : list DataRecord :=
  match sortState with
  | None => data
  | Some st => arraySort (compareRecords st) data
  end.
End SortedView.

(** ** Row identity (DataTable.tsx, lines 52-60) *)

(** The [rowKey] prop: a field name or a function of the record. *)
Inductive RowKey : Type :=
  | RowKeyField (field : string)
  | RowKeyFn (fn : DataRecord → string).

(** [if (rowKey)] holds for a function and for a non-empty field name. *)
Definition getRowKey (rowKey : option RowKey) (record : DataRecord) (index : nat)
  : string :=
  match rowKey with
  | Some (RowKeyFn fn) => fn record
  | Some (RowKeyField field) =>
      if decide (field = "") then pretty index
      else toString (getField record field)
  | None => pretty index
  end.

(** ** Props and state of the component *)

Record Pagination : Type := mkPagination {
  current : Z;
  pageSize : Z;
  total : Z
}.

Record Props : Type := mkProps {
  data : list DataRecord;
  columns : list Column;
  loading : bool;
  selectable : bool;
  (** whether the caller passed an [onRowSelect] callback *)
  onRowSelect : bool;
  emptyText : string;
  rowKey : option RowKey;
  pagination : option Pagination
}.

Record State : Type := mkState {
  sortState : option SortState;
  selectedRows : gset string;
  selectAll : bool
}.

Definition initialState : State :=
  {| sortState := None; selectedRows := ∅; selectAll := false |}.

(** The arguments of the [onRowSelect] calls a handler made, in order. *)
Abbreviation Calls := (list (list DataRecord)).

(** ** Header click (DataTable.tsx, lines 88-100) *)

(** [!column.sortable]: an absent flag counts as [false]. *)
Definition isSortable (column : Column) : bool :=
  default false (col_sortable column).

Definition nextSortState (column : Column) (prev : option SortState)
  : option SortState :=
  match prev with
  | None => Some {| key := col_key column; direction := asc |}
  | Some st =>
      if negb (bool_decide (key st = col_key column))
      then Some {| key := col_key column; direction := asc |}
      else match direction st with
           | asc => Some {| key := col_key column; direction := desc |}
           | desc => None
           end
  end.

Definition handleSort (column : Column) (s : State) : State :=
  if negb (isSortable column) then s
  else {| sortState := nextSortState column (sortState s);
          selectedRows := selectedRows s;
          selectAll := selectAll s |}.

(** ** Selection handlers (DataTable.tsx, lines 103-136) *)

(** [array.filter((x, index) => p(x, index))], counting from [i]. *)
Fixpoint filterFrom {A : Type} (p : A → nat → bool) (i : nat) (l : list A)
  : list A :=
  match l with
  | [] => []
  | x :: l' => if p x i then x :: filterFrom p (S i) l' else filterFrom p (S i) l'
  end.

Definition filterIndexed {A : Type} (p : A → nat → bool) (l : list A) : list A :=
  filterFrom p 0 l.

Section Handlers.
Context {collator : Collator}.

(** The keys of the rows of a view, in row order. *)
Definition rowKeys (rk : option RowKey) (view : list DataRecord) : list string :=
  imap (λ index record, getRowKey rk record index) view.

Definition handleRowSelect (p : Props) (s : State) (k : string) (checked : bool)
  : State * Calls :=
  let view := sortedData (data p) (sortState s) in
  let newSelectedRows :=
    if checked then selectedRows s ∪ {[ k ]} else selectedRows s ∖ {[ k ]} in
  let s' := {| sortState := sortState s;
               selectedRows := newSelectedRows;
               selectAll := bool_decide (size newSelectedRows = length view) |} in
  if onRowSelect p then
    let selectedData :=
      filterIndexed
        (λ record index,
           bool_decide (getRowKey (rowKey p) record index ∈ newSelectedRows))
        view in
    (s', [selectedData])
  else (s', []).

Definition handleSelectAll (p : Props) (s : State) (checked : bool)
  : State * Calls :=
  let view := sortedData (data p) (sortState s) in
  if checked then
    let allRowKeys := rowKeys (rowKey p) view in
    ({| sortState := sortState s;
        selectedRows := list_to_set allRowKeys;
        selectAll := true |},
     if onRowSelect p then [view] else [])
  else
    ({| sortState := sortState s;
        selectedRows := ∅;
        selectAll := false |},
     if onRowSelect p then [[]] else []).
End Handlers.

(** ** Pagination block (DataTable.tsx, lines 256-283) *)

(** [Math.ceil(a / b)] on integer-valued numbers, for [b] other than 0. *)
Definition ceilDiv (a b : Z) : Z :=
  Qceiling (inject_Z a / inject_Z b)%Q.

Record PaginationView : Type := mkPaginationView {
  showingFrom : Z;
  showingTo : Z;
  showingOf : Z;
  previousDisabled : bool;
  pageNumber : Z;
  pageCount : Z;
  nextDisabled : bool
}.

Definition renderPagination (pg : Pagination) : PaginationView :=
  {| showingFrom := (current pg - 1) * pageSize pg + 1;
     showingTo := Z.min (current pg * pageSize pg) (total pg);
     showingOf := total pg;
     previousDisabled := bool_decide (current pg = 1);
     pageNumber := current pg;
     pageCount := ceilDiv (total pg) (pageSize pg);
     nextDisabled := bool_decide (current pg >= ceilDiv (total pg) (pageSize pg)) |}.

(** ** What the component renders (DataTable.tsx, lines 162-285) *)

Record RowView : Type := mkRowView {
  rowId : string;
  rowSelected : bool;
  rowRecord : DataRecord
}.

Record TableView : Type := mkTableView {
  (** the header checkbox and its [checked] state, when [selectable] *)
  headerCheckbox : option bool;
  headers : list Column;
  rows : list RowView;
  paginationView : option PaginationView
}.

Inductive Rendered : Type :=
  | RenderLoading
  | RenderEmpty (text : string)
  | RenderTable (t : TableView).

Section Render.
Context {collator : Collator}.

Definition render (p : Props) (s : State) : Rendered :=
  if loading p then RenderLoading
  else if bool_decide (length (data p) = 0%nat) then RenderEmpty (emptyText p)
  else
    let view := sortedData (data p) (sortState s) in
    RenderTable
      {| headerCheckbox := if selectable p then Some (selectAll s) else None;
         headers := columns p;
         rows := imap (λ index record,
                         let k := getRowKey (rowKey p) record index in
                         {| rowId := k;
                            rowSelected := bool_decide (k ∈ selectedRows s);
                            rowRecord := record |}) view;
         paginationView := renderPagination <$> pagination p |}.
End Render.

(** ** Arrays as shared objects

    [sort] works in place and returns the array it was called on, and
    [[...data]] allocates a new array.  The memo body of [sortedData] is
    therefore also given over a store of arrays, next to the hooks of
    the component, so that what it does to the caller's array can be
    stated. *)

Record World : Type := mkWorld {
  arrays : gmap positive (list DataRecord);
  hooks : State
}.

Definition M (A : Type) : Type := World → option (A * World).

#[global] Instance M_ret : MRet M := λ A x w, Some (x, w).

#[global] Instance M_bind : MBind M := λ A B f m w,
  match m w with
  | Some (x, w') => f x w'
  | None => None
  end.

(** Reading through a reference; a dangling one is a failure. *)
Definition readArray (ref : positive) : M (list DataRecord) := λ w,
  match arrays w !! ref with
  | Some xs => Some (xs, w)
  | None => None
  end.

Definition writeArray (ref : positive) (xs : list DataRecord) : M unit := λ w,
  match arrays w !! ref with
  | Some _ => Some ((), {| arrays := <[ref := xs]> (arrays w); hooks := hooks w |})
  | None => None
  end.

Definition allocArray (xs : list DataRecord) : M positive := λ w,
  let ref := fresh (dom (arrays w)) in
  Some (ref, {| arrays := <[ref := xs]> (arrays w); hooks := hooks w |}).

(** [[...array]] *)
Definition spread (ref : positive) : M positive :=
  xs ← readArray ref; allocArray xs.

(** [array.sort(cmp)] *)
Definition sortInPlace (cmp : DataRecord → DataRecord → Z) (ref : positive)
  : M positive :=
  xs ← readArray ref; _ ← writeArray ref (arraySort cmp xs); mret ref.

Section SortedViewInStore.
Context {collator : Collator}.

Definition sortedDataM (dataRef : positive) (st : option SortState) : M positive :=
  match st with
  | None => mret dataRef
  | Some st => copy ← spread dataRef; sortInPlace (compareRecords st) copy
  end.
End SortedViewInStore.

(** ** The component as a transition system *)

#[global] Instance Column_eq_dec : EqDecision Column.
Proof. solve_decision. Defined.

Inductive Event : Type :=
  | HeaderClick (column : Column)
  | RowCheckbox (index : nat) (checked : bool)
  | SelectAllCheckbox (checked : bool).

(** What happens to a mounted component. *)
Inductive Action : Type :=
  | User (e : Event)
  | Parent (p' : Props).

Section Transitions.
Context {collator : Collator}.

(** An event reaches its handler only through a control that is on
    screen: [None] when the control is not rendered. *)
Definition dispatch (p : Props) (s : State) (e : Event) : option (State * Calls) :=
  match render p s with
  | RenderTable t =>
      match e with
      | HeaderClick column =>
          if bool_decide (column ∈ headers t) then Some (handleSort column s, [])
          else None
      | RowCheckbox index checked =>
          match headerCheckbox t, rows t !! index with
          | Some _, Some r => Some (handleRowSelect p s (rowId r) checked)
          | _, _ => None
          end
      | SelectAllCheckbox checked =>
          match headerCheckbox t with
          | Some _ => Some (handleSelectAll p s checked)
          | None => None
          end
      end
  | _ => None
  end.

(** One step: the user operates a control, or the parent renders the
    component again with new props.  The hooks keep their values
    across renders. *)
Definition perform (c : Props * State) (a : Action) : option (Props * State) :=
  match a with
  | User e =>
      match dispatch c.1 c.2 e with
      | Some (s', _) => Some (c.1, s')
      | None => None
      end
  | Parent p' => Some (p', c.2)
  end.

Fixpoint run (c : Props * State) (actions : list Action)
  : option (Props * State) :=
  match actions with
  | [] => Some c
  | a :: actions' =>
      match perform c a with
      | Some c' => run c' actions'
      | None => None
      end
  end.
End Transitions.

(** New props with the records and the row identity of [p]. *)
Definition sameRows (p p' : Props) : Prop :=
  data p' = data p ∧ rowKey p' = rowKey p.

(** The parent never replaces the records or the row identity. *)
Definition keepsRows (p : Props) (actions : list Action) : Prop :=
  Forall (λ a, match a with User _ => True | Parent p' => sameRows p p' end)
         actions.

(** The identities of the rows of the current sorted view. *)
Definition viewKeys `{Collator} (p : Props) (s : State) : gset string :=
  list_to_set (rowKeys (rowKey p) (sortedData (data p) (sortState s))).

(** ** Properties the claims are stated with *)

(** The record has a value (neither [null] nor [undefined]) under [k]. *)
Definition hasValue (k : string) (r : DataRecord) : Prop :=
  isNullish (getField r k) = false.

#[global] Instance hasValue_dec k r : Decision (hasValue k r).
Proof. unfold hasValue. apply _. Defined.

(** The rows without a value form the tail of the view. *)
Definition nullsLast (k : string) (view : list DataRecord) : Prop :=
  ∃ withValue without,
    view = withValue ++ without ∧
    Forall (hasValue k) withValue ∧
    Forall (λ r, ¬ hasValue k r) without.

(** Sorting by [k] downwards reverses the rows with a value of the
    upwards view and keeps the other rows last, both ways. *)
Definition reversalLaw `{Collator} (data : list DataRecord) (k : string) : Prop :=
  let up := sortedData data (Some {| key := k; direction := asc |}) in
  let down := sortedData data (Some {| key := k; direction := desc |}) in
  filter (hasValue k) down = reverse (filter (hasValue k) up) ∧
  nullsLast k up ∧ nullsLast k down.

(** The rows of the view whose identity is in [sel], taken position by
    position in the order of the view. *)
Definition selectedInViewOrder (rk : option RowKey) (sel : gset string)
  (view : list DataRecord) : list DataRecord :=
  snd <$> filter (λ jx : nat * DataRecord, getRowKey rk jx.2 jx.1 ∈ sel)
                 (imap (λ j x, (j, x)) view).

(** The result of a comparison, as the direction has it. *)
Definition directed (d : Direction) (c : Z) : Z :=
  match d with asc => c | desc => - c end.

(** The selection set survives new props and is emptied by nothing but
    the select-all checkbox. *)
Definition selectionResetOnlyBySelectAll `{Collator} : Prop :=
  (∀ c p' c', perform c (Parent p') = Some c' →
     selectedRows c'.2 = selectedRows c.2) ∧
  (∀ c a c', perform c a = Some c' →
     selectedRows c.2 ≠ ∅ → selectedRows c'.2 = ∅ →
     ∃ checked, a = User (SelectAllCheckbox checked)).

(** The event is the header checkbox, checked or unchecked. *)
Definition isSelectAllEvent (a : Action) : bool :=
  match a with
  | User (SelectAllCheckbox _) => true
  | _ => false
  end.

(** The event unchecks the header checkbox: [toggleAll(false)]. *)
Definition isSelectNone (a : Action) : bool :=
  match a with
  | User (SelectAllCheckbox false) => true
  | _ => false
  end.

(** No row of the view of [p] has the identity [k], however the view
    is sorted. *)
Definition lacksIdentity `{Collator} (k : string) (p : Props) : Prop :=
  k ∉ viewKeys p initialState.

(** Every collection the parent supplies lacks the identity [k]. *)
Definition staysLacking `{Collator} (k : string) (actions : list Action) : Prop :=
  Forall (λ a, match a with User _ => True | Parent p' => lacksIdentity k p' end)
         actions.

(** An identity selected from a row of the view, whose row the next
    collection lacks, is in the set until the header checkbox is
    unchecked: after whatever else happens. *)
Definition keptUntilSelectNone `{Collator} : Prop :=
  ∀ p s i r c1 p' actions c2,
    sortedData (data p) (sortState s) !! i = Some r →
    perform (p, s) (User (RowCheckbox i true)) = Some c1 →
    lacksIdentity (getRowKey (rowKey p) r i) p' →
    staysLacking (getRowKey (rowKey p) r i) actions →
    Forall (λ a, isSelectNone a = false) actions →
    run (p', c1.2) actions = Some c2 →
    getRowKey (rowKey p) r i ∈ selectedRows c2.2.

(** [cmp] orders the elements of [l] strictly and totally: no two of
    them tie, and on them it is antisymmetric and transitive. *)
Definition strictOrderOn {A : Type} (cmp : A → A → Z) (l : list A) : Prop :=
  NoDup l ∧
  Forall (λ a, Forall (λ b, a ≠ b → cmp a b ≠ 0) l) l ∧
  Forall (λ a, Forall (λ b, cmp a b < 0 ↔ 0 < cmp b a) l) l ∧
  Forall (λ a, Forall (λ b, Forall (λ c,
    cmp a b < 0 → cmp b c < 0 → cmp a c < 0) l) l) l.

#[global] Instance strictOrderOn_dec {A : Type} `{EqDecision A}
  (cmp : A → A → Z) (l : list A) : Decision (strictOrderOn cmp l).
Proof. unfold strictOrderOn. apply _. Defined.

(** ** Records of the examples *)

Definition idName (id : Z) (name : JsValue) : DataRecord :=
  {[ "id" := VNum id; "name" := name ]}.

(** Two rows that tie under [name]. *)
Definition tiedRows : list DataRecord :=
  [idName 1 (VStr "a"); idName 2 (VStr "a")].

(** The rows of the end-to-end scenario of the specification. *)
Definition scenarioRows : list DataRecord :=
  [idName 2 (VStr "b"); idName 1 (VStr "a"); idName 3 VNull].

Definition nameColumn : Column :=
  {| col_key := "name"; col_title := "Name"; col_dataIndex := "name";
     col_sortable := Some true |}.

(** Props of the examples: rows identified by their [id]. *)
Definition propsOf (rows : list DataRecord) : Props :=
  {| data := rows; columns := [nameColumn]; loading := false; selectable := true;
     onRowSelect := true; emptyText := "No data available";
     rowKey := Some (RowKeyField "id"); pagination := None |}.

(** ** Sort icon (DataTable.tsx, lines 139-149) *)

(** The three glyphs: both arrows, up, down. *)
Inductive SortIcon : Type := IconBoth | IconAsc | IconDesc.

#[global] Instance SortIcon_eq_dec : EqDecision SortIcon.
Proof. solve_decision. Defined.

(** [None] is the [null] of a column that is not sortable. *)
Definition getSortIcon (column : Column) (s : State) : option SortIcon :=
  if negb (isSortable column) then None
  else match sortState s with
       | None => Some IconBoth
       | Some st =>
           if negb (bool_decide (key st = col_key column)) then Some IconBoth
           else match direction st with
                | asc => Some IconAsc
                | desc => Some IconDesc
                end
       end.

(** ** Cell content (DataTable.tsx, lines 152-160) *)

Inductive ReactNode : Type :=
  | TextNode (s : string)
  | ElementNode (tag : string) (children : list ReactNode).

(** The [render] field of a column, which [Column] leaves out. *)
Abbreviation CellRender := (JsValue → DataRecord → nat → ReactNode).

(** [value != null] *)
Definition looseNotNull (v : JsValue) : bool := negb (isNullish v).

Definition renderCell (column : Column) (cellRender : option CellRender)
  (record : DataRecord) (index : nat) : ReactNode :=
  let value := getField record (col_dataIndex column) in
  match cellRender with
  | Some f => f value record index
  | None => if looseNotNull value then TextNode (toString value) else TextNode ""
  end.

(** ** Pagination buttons (DataTable.tsx, lines 264-280) *)

(** A click on a button calls [onChange] with these arguments; a
    disabled button calls nothing. *)
Definition clickPrevious (pg : Pagination) : option (Z * Z) :=
  if previousDisabled (renderPagination pg) then None
  else Some (current pg - 1, pageSize pg).

Definition clickNext (pg : Pagination) : option (Z * Z) :=
  if nextDisabled (renderPagination pg) then None
  else Some (current pg + 1, pageSize pg).

Section PaginationClicks.
Context {collator : Collator}.

(** The buttons exist when the table is on screen and the caller
    passed a descriptor. *)
Definition paginationClick (p : Props) (s : State) (next : bool) : option (Z * Z) :=
  match render p s with
  | RenderTable t =>
      match pagination p with
      | Some pg => if next then clickNext pg else clickPrevious pg
      | None => None
      end
  | _ => None
  end.
End PaginationClicks.

(** ** The caller (App.tsx; the WithPagination and ComplexExample stories) *)

(** An index argument of [slice], relative to the length. *)
Definition clampIndex (len i : Z) : Z :=
  if decide (i < 0) then Z.max (len + i) 0 else Z.min i len.

(** [array.slice(start, end)] *)
Definition slice {A : Type} (start finish : Z) (l : list A) : list A :=
  let len := Z.of_nat (length l) in
  let k := clampIndex len start in
  let final := clampIndex len finish in
  take (Z.to_nat (final - k)) (drop (Z.to_nat k) l).

(** [users.slice((currentPage - 1) * pageSize, currentPage * pageSize)] *)
Definition paginatedData (users : list DataRecord) (perPage page : Z)
  : list DataRecord :=
  slice ((page - 1) * perPage) (page * perPage) users.

Record AppState : Type := mkAppState {
  selectedUsers : list DataRecord;
  currentPage : Z
}.

Definition appInitial : AppState :=
  {| selectedUsers := []; currentPage := 1 |}.

(** The props a paging caller hands to the table. *)
Definition pagedProps (users : list DataRecord) (cols : list Column)
  (perPage : Z) (a : AppState) : Props :=
  {| data := paginatedData users perPage (currentPage a);
     columns := cols;
     loading := false;
     selectable := true;
     onRowSelect := true;
     emptyText := "No data available";
     rowKey := None;
     pagination := Some {| current := currentPage a;
                           pageSize := perPage;
                           total := Z.of_nat (length users) |} |}.

Definition user (id : Z) (name email role status lastLogin : string) : DataRecord :=
  {[ "id" := VNum id; "name" := VStr name; "email" := VStr email;
     "role" := VStr role; "status" := VStr status;
     "lastLogin" := VStr lastLogin ]}.

Definition sampleUsers : list DataRecord :=
  [ user 1 "John Doe" "john@example.com" "Admin" "active" "2024-01-15";
    user 2 "Jane Smith" "jane@example.com" "User" "active" "2024-01-14";
    user 3 "Bob Johnson" "bob@example.com" "User" "inactive" "2024-01-10";
    user 4 "Alice Brown" "alice@example.com" "Moderator" "active" "2024-01-13";
    user 5 "Charlie Wilson" "charlie@example.com" "User" "active" "2024-01-12" ].

Definition sortableColumn (k title : string) : Column :=
  {| col_key := k; col_title := title; col_dataIndex := k;
     col_sortable := Some true |}.

Definition userColumns : list Column :=
  [ sortableColumn "id" "ID"; sortableColumn "name" "Name";
    sortableColumn "email" "Email"; sortableColumn "role" "Role";
    sortableColumn "status" "Status"; sortableColumn "lastLogin" "Last Login" ].

(** The table of [App]: pages of 3. *)
Definition App (a : AppState) : Props := pagedProps sampleUsers userColumns 3 a.

Inductive AppEvent : Type :=
  | TableEvent (e : Event)
  | PreviousClick
  | NextClick.

Section Caller.
Context {collator : Collator}.

(** [onRowSelect={setSelectedUsers}] and [onChange: setCurrentPage]:
    the last call of a handler decides the new value. *)
Definition pagedStep (users : list DataRecord) (cols : list Column) (perPage : Z)
  (c : AppState * State) (e : AppEvent) : option (AppState * State) :=
  let p := pagedProps users cols perPage c.1 in
  match e with
  | TableEvent ev =>
      match dispatch p c.2 ev with
      | Some (s', calls) =>
          Some ({| selectedUsers := foldl (λ _ rows, rows) (selectedUsers c.1) calls;
                   currentPage := currentPage c.1 |}, s')
      | None => None
      end
  | PreviousClick =>
      match paginationClick p c.2 false with
      | Some (page, _) =>
          Some ({| selectedUsers := selectedUsers c.1; currentPage := page |}, c.2)
      | None => None
      end
  | NextClick =>
      match paginationClick p c.2 true with
      | Some (page, _) =>
          Some ({| selectedUsers := selectedUsers c.1; currentPage := page |}, c.2)
      | None => None
      end
  end.

Fixpoint pagedRun (users : list DataRecord) (cols : list Column) (perPage : Z)
  (c : AppState * State) (events : list AppEvent) : option (AppState * State) :=
  match events with
  | [] => Some c
  | e :: events' =>
      match pagedStep users cols perPage c e with
      | Some c' => pagedRun users cols perPage c' events'
      | None => None
      end
  end.
End Caller.

(** ** More properties the theorems are stated with *)

(** [cmp] is a strict weak order on the elements of [l]: "compares
    below" is asymmetric, and "does not compare below" is transitive. *)
Definition weakOrderOn {A : Type} (cmp : A → A → Z) (l : list A) : Prop :=
  Forall (λ a, Forall (λ b, cmp a b < 0 → ¬ cmp b a < 0) l) l ∧
  Forall (λ a, Forall (λ b, Forall (λ c,
    ¬ cmp a b < 0 → ¬ cmp b c < 0 → ¬ cmp a c < 0) l) l) l.

#[global] Instance weakOrderOn_dec {A : Type} (cmp : A → A → Z) (l : list A) :
  Decision (weakOrderOn cmp l).
Proof. unfold weakOrderOn. apply _. Defined.

(** No element compares below an element before it. *)
Definition inOrder {A : Type} (cmp : A → A → Z) (l : list A) : Prop :=
  StronglySorted (λ a b, ¬ cmp b a < 0) l.

(** The value under [k] is an integer-valued number, [null] or
    [undefined]. *)
Definition integerOrNullish (k : string) (r : DataRecord) : Prop :=
  (∃ n : Z, getField r k = VNum n) ∨ isNullish (getField r k) = true.

(** The value is [null], [undefined], a boolean, a number or a string,
    and no object. *)
Definition isPrimitive (v : JsValue) : Prop :=
  match v with
  | VObject _ => False
  | _ => True
  end.

(** The row identity reads the record and not the position. *)
Definition identityOfRecord (rk : option RowKey) : Prop :=
  match rk with
  | Some (RowKeyFn _) => True
  | Some (RowKeyField field) => field ≠ ""
  | None => False
  end.

#[global] Instance identityOfRecord_dec rk : Decision (identityOfRecord rk).
Proof. destruct rk as [[field|fn]|]; simpl; apply _. Defined.

(** The column of selected flags of what is on screen. *)
Definition selectedFlags `{Collator} (p : Props) (s : State) : list bool :=
  match render p s with
  | RenderTable t => rowSelected <$> rows t
  | _ => []
  end.

(** The icon a click on the header turns an icon into. *)
Definition nextIcon (icon : SortIcon) : SortIcon :=
  match icon with
  | IconBoth => IconAsc
  | IconAsc => IconDesc
  | IconDesc => IconBoth
  end.

(** The icon is one of the two single arrows. *)
Definition showsDirection (icon : option SortIcon) : Prop :=
  icon = Some IconAsc ∨ icon = Some IconDesc.

(** The flag says "all selected" exactly when the set is the set of
    identities of the view. *)
Definition flagTracks `{Collator} (p : Props) (s : State) : Prop :=
  selectAll s = true ↔ selectedRows s = viewKeys p s.

(** * Proofs *)

(** ** The sort rearranges, and orders what the comparator orders *)

Section ArraySortFacts.
Context {A : Type} (cmp : A → A → Z).

Lemma sortInsert_perm x l : sortInsert cmp x l ≡ₚ x :: l.
Proof.
  induction l as [|y l IH]; simpl; [done|].
  case_decide; [done|]. rewrite IH. apply Permutation_swap.
Qed.

Lemma sortInto_perm acc l : sortInto cmp acc l ≡ₚ acc ++ l.
Proof.
  revert acc. induction l as [|x l IH]; intros acc; simpl.
  - by rewrite app_nil_r.
  - rewrite IH, sortInsert_perm. simpl. apply Permutation_middle.
Qed.

Lemma arraySort_perm l : arraySort cmp l ≡ₚ l.
Proof. unfold arraySort. by rewrite sortInto_perm. Qed.

Lemma arraySort_length l : length (arraySort cmp l) = length l.
Proof. by rewrite arraySort_perm. Qed.

(** An element that compares below nothing goes to the very end. *)
Lemma sortInsert_last x l :
  Forall (λ y, ¬ cmp x y < 0) l → sortInsert cmp x l = l ++ [x].
Proof.
  induction 1 as [|y l Hy _ IH]; simpl; [done|].
  case_decide; [done|]. by rewrite IH.
Qed.

(** A tail of elements that [x] compares below is left alone. *)
Lemma sortInsert_before x l tl :
  Forall (λ y, cmp x y < 0) tl →
  sortInsert cmp x (l ++ tl) = sortInsert cmp x l ++ tl.
Proof.
  intros Htl. induction l as [|y l IH]; simpl.
  - destruct Htl as [|z tl Hz _]; simpl; [done|]. by rewrite decide_True.
  - case_decide; [done|]. by rewrite IH.
Qed.

(** [strictOrderOn] by membership. *)
Lemma strictOrderOn_elem_of l :
  strictOrderOn cmp l ↔
    NoDup l ∧
    (∀ a b, a ∈ l → b ∈ l → a ≠ b → cmp a b ≠ 0) ∧
    (∀ a b, a ∈ l → b ∈ l → cmp a b < 0 ↔ 0 < cmp b a) ∧
    (∀ a b c, a ∈ l → b ∈ l → c ∈ l → cmp a b < 0 → cmp b c < 0 → cmp a c < 0).
Proof.
  unfold strictOrderOn. repeat setoid_rewrite Forall_forall.
  split; intros (? & ? & ? & ?); split_and!; eauto.
Qed.

Lemma strictOrderOn_subseteq l l' :
  NoDup l' → l' ⊆ l → strictOrderOn cmp l → strictOrderOn cmp l'.
Proof.
  intros Hnd Hsub. rewrite !strictOrderOn_elem_of.
  intros (_ & H1 & H2 & H3).
  split_and!; [done| | |].
  - intros a b ? ? ?. apply H1; auto.
  - intros a b ? ?. apply H2; auto.
  - intros a b c ? ? ?. apply H3; auto.
Qed.

Lemma strictOrderOn_perm l l' :
  l ≡ₚ l' → strictOrderOn cmp l → strictOrderOn cmp l'.
Proof.
  intros E. rewrite !strictOrderOn_elem_of.
  repeat setoid_rewrite E. done.
Qed.

Lemma strictOrderOn_total l a b :
  strictOrderOn cmp l → a ∈ l → b ∈ l → a ≠ b → cmp a b < 0 ∨ cmp b a < 0.
Proof.
  rewrite strictOrderOn_elem_of. intros (_ & Hne & Hanti & _) Ha Hb Hab.
  specialize (Hne a b Ha Hb Hab). specialize (Hanti b a Hb Ha). lia.
Qed.

Lemma strictOrderOn_asym l a b :
  strictOrderOn cmp l → a ∈ l → b ∈ l → cmp a b < 0 → cmp b a < 0 → False.
Proof.
  rewrite strictOrderOn_elem_of. intros (_ & _ & Hanti & _) Ha Hb Hab Hba.
  apply (Hanti a b Ha Hb) in Hab. lia.
Qed.

(** Insertion among strictly ordered elements keeps them so. *)
Lemma sortInsert_sorted x l :
  strictOrderOn cmp (x :: l) →
  StronglySorted (λ a b, cmp a b < 0) l →
  StronglySorted (λ a b, cmp a b < 0) (sortInsert cmp x l).
Proof.
  intros Hord Hs.
  induction Hs as [|y l Hs IH Hy]; simpl.
  - repeat constructor.
  - pose proof Hord as (Hnd & _ & _ & Htr)%strictOrderOn_elem_of.
    case_decide as Hxy.
    + constructor; [by constructor|].
      constructor; [done|].
      rewrite Forall_forall in Hy |- *. intros z Hz.
      apply (Htr x y z); [set_solver..|done|by apply Hy].
    + assert (cmp y x < 0) as Hyx.
      { destruct (strictOrderOn_total (x :: y :: l) y x Hord) as [?|?];
          [set_solver..| |done|done].
        intros ->. apply NoDup_cons in Hnd as [Hnd _]. set_solver. }
      constructor.
      * apply IH. apply (strictOrderOn_subseteq (x :: y :: l)); [|set_solver|done].
        apply NoDup_cons in Hnd as [Hx Hnd]. apply NoDup_cons in Hnd as [_ Hnd].
        apply NoDup_cons. set_solver.
      * rewrite sortInsert_perm. by constructor.
Qed.

Lemma sortInto_sorted acc l :
  strictOrderOn cmp (acc ++ l) →
  StronglySorted (λ a b, cmp a b < 0) acc →
  StronglySorted (λ a b, cmp a b < 0) (sortInto cmp acc l).
Proof.
  revert acc. induction l as [|x l IH]; intros acc Hord Hs; simpl; [done|].
  assert (acc ++ x :: l ≡ₚ sortInsert cmp x acc ++ l) as E.
  { rewrite sortInsert_perm. simpl. by rewrite Permutation_middle. }
  apply IH; [by eapply strictOrderOn_perm|].
  apply sortInsert_sorted; [|done].
  apply (strictOrderOn_subseteq (acc ++ x :: l)); [|set_solver|done].
  destruct Hord as [Hnd _]. rewrite <-Permutation_middle in Hnd.
  change (NoDup ((x :: acc) ++ l)) in Hnd. by apply NoDup_app in Hnd as [? _].
Qed.

(** On a strict total order the result is the increasing arrangement. *)
Lemma arraySort_sorted l :
  strictOrderOn cmp l → StronglySorted (λ a b, cmp a b < 0) (arraySort cmp l).
Proof. intros Hord. apply sortInto_sorted; [done|constructor]. Qed.

(** Every sorted rearrangement of a strictly ordered list is the one
    [arraySort] computes: on such input the result does not depend on
    the sorting algorithm. *)
Lemma arraySort_unique l l' :
  strictOrderOn cmp l → l' ≡ₚ l →
  StronglySorted (λ a b, cmp a b < 0) l' → l' = arraySort cmp l.
Proof.
  intros Hord E Hs.
  apply (StronglySorted_unique_strong (λ a b, cmp a b < 0)).
  - intros a b Ha Hb Hab Hba. exfalso.
    rewrite E in Ha. rewrite arraySort_perm in Hb.
    by apply (strictOrderOn_asym l a b).
  - done.
  - by apply arraySort_sorted.
  - by rewrite arraySort_perm.
Qed.
End ArraySortFacts.

Section SortedListFacts.
Context {A : Type}.

Lemma StronglySorted_on (R R' : relation A) l :
  (∀ a b, a ∈ l → b ∈ l → R a b → R' a b) →
  StronglySorted R l → StronglySorted R' l.
Proof.
  intros HR Hs. induction Hs as [|x l Hs IH Hx]; constructor.
  - apply IH. intros a b Ha Hb. apply HR; by constructor.
  - rewrite Forall_forall in Hx |- *. intros y Hy.
    apply HR; [by left|by right|by apply Hx].
Qed.

Lemma StronglySorted_reverse (R : relation A) l :
  StronglySorted (flip R) l → StronglySorted R (reverse l).
Proof.
  induction 1 as [|x l Hs IH Hx]; [constructor|].
  rewrite reverse_cons. apply StronglySorted_app_2; [|done|repeat constructor].
  intros a b Ha ->%list_elem_of_singleton.
  rewrite Forall_forall in Hx. apply Hx. by apply elem_of_reverse.
Qed.
End SortedListFacts.

(** ** The comparator on values *)

Section ComparatorFacts.
Context {collator : Collator}.


Lemma strictEq_isNullish a b :
  strictEq a b = true → isNullish a = isNullish b.
Proof. by destruct a, b. Qed.

(** A value that is [null] or [undefined] never compares below. *)
Lemma compareValues_nullish_l d a b :
  isNullish a = true → compareValues d a b = 0 ∨ compareValues d a b = 1.
Proof.
  intros Ha. unfold compareValues. rewrite Ha. destruct (strictEq a b); auto.
Qed.

Lemma compareValues_nullish_r d a b :
  isNullish a = false → isNullish b = true → compareValues d a b = -1.
Proof.
  intros Ha Hb. unfold compareValues. rewrite Ha, Hb.
  destruct (strictEq a b) eqn:E; [|done].
  apply strictEq_isNullish in E. congruence.
Qed.

Lemma compareValues_desc a b :
  isNullish a = false → isNullish b = false →
  compareValues desc a b = - compareValues asc a b.
Proof.
  intros Ha Hb. unfold compareValues. rewrite Ha, Hb.
  by destruct (strictEq a b).
Qed.

Lemma compareRecords_desc k a b :
  hasValue k a → hasValue k b →
  compareRecords {| key := k; direction := desc |} a b
  = - compareRecords {| key := k; direction := asc |} a b.
Proof. intros Ha Hb. by apply compareValues_desc. Qed.

(** ** Rows without a value stay behind, in their input order *)

Lemma sortInto_nulls_last st withValue without l :
  Forall (λ r, ¬ hasValue (key st) r) without →
  sortInto (compareRecords st) (withValue ++ without) l
  = sortInto (compareRecords st) withValue (filter (hasValue (key st)) l)
    ++ without ++ filter (λ r, ¬ hasValue (key st) r) l.
Proof.
  revert withValue without.
  induction l as [|x l IH]; intros D N HN; simpl.
  { by rewrite filter_nil, app_nil_r. }
  destruct (decide (hasValue (key st) x)) as [Hx|Hx].
  - rewrite filter_cons_True, filter_cons_False by auto. simpl.
    rewrite sortInsert_before; [by apply IH|].
    eapply Forall_impl; [exact HN|]. intros y Hy. simpl in Hy.
    unfold compareRecords. rewrite compareValues_nullish_r.
    + lia.
    + exact Hx.
    + unfold hasValue in Hy. by destruct (isNullish (getField y (key st))).
  - rewrite filter_cons_False, filter_cons_True by auto.
    rewrite sortInsert_last.
    + rewrite <-(assoc_L (++)), IH; [by rewrite <-(assoc_L (++))|].
      apply Forall_app; auto.
    + apply Forall_forall. intros y _. unfold compareRecords.
      destruct (compareValues_nullish_l (direction st)
        (getField x (key st)) (getField y (key st))) as [->| ->]; [|lia..].
      unfold hasValue in Hx. by destruct (isNullish (getField x (key st))).
Qed.

Lemma arraySort_nulls_last st l :
  arraySort (compareRecords st) l
  = arraySort (compareRecords st) (filter (hasValue (key st)) l)
    ++ filter (λ r, ¬ hasValue (key st) r) l.
Proof. apply (sortInto_nulls_last st [] []). constructor. Qed.

Lemma filter_hasValue_sorted st l :
  filter (hasValue (key st)) (arraySort (compareRecords st) l)
  = arraySort (compareRecords st) (filter (hasValue (key st)) l).
Proof.
  rewrite (arraySort_nulls_last st l) at 1. rewrite filter_app.
  assert (∀ l', Forall (hasValue (key st)) l' → filter (hasValue (key st)) l' = l')
    as Hall.
  { induction 1; [done|]. rewrite filter_cons_True by done. by f_equal. }
  assert (∀ l', Forall (λ r, ¬ hasValue (key st) r) l' →
                filter (hasValue (key st)) l' = []) as Hnone.
  { induction 1; [done|]. by rewrite filter_cons_False. }
  rewrite (Hnone (filter _ l)), app_nil_r.
  - apply Hall. rewrite arraySort_perm. apply Forall_forall.
    by intros r [? _]%list_elem_of_filter.
  - apply Forall_forall. by intros r [? _]%list_elem_of_filter.
Qed.
End ComparatorFacts.

(** ** Ascending against descending *)

Section Directions.
Context {collator : Collator}.

Lemma strictOrderOn_desc k l :
  Forall (hasValue k) l →
  strictOrderOn (compareRecords {| key := k; direction := asc |}) l →
  strictOrderOn (compareRecords {| key := k; direction := desc |}) l.
Proof.
  intros Hl. rewrite !strictOrderOn_elem_of, Forall_forall in *.
  intros (Hnd & H1 & H2 & H3).
  assert (∀ a b, a ∈ l → b ∈ l →
    compareRecords {| key := k; direction := desc |} a b
    = - compareRecords {| key := k; direction := asc |} a b) as E.
  { intros a b Ha Hb. apply compareRecords_desc; auto. }
  split_and!; [done| | |].
  - intros a b Ha Hb Hab. rewrite E by done. specialize (H1 a b Ha Hb Hab). lia.
  - intros a b Ha Hb. rewrite !E by done.
    specialize (H2 b a Hb Ha). lia.
  - intros a b c Ha Hb Hc. rewrite !E by done. intros Hab Hbc.
    pose proof (H2 b a Hb Ha). pose proof (H2 c b Hc Hb).
    pose proof (H2 c a Hc Ha). pose proof (H3 c b a Hc Hb Ha). lia.
Qed.

Lemma arraySort_desc_reverse k l :
  Forall (hasValue k) l →
  strictOrderOn (compareRecords {| key := k; direction := asc |}) l →
  arraySort (compareRecords {| key := k; direction := desc |}) l
  = reverse (arraySort (compareRecords {| key := k; direction := asc |}) l).
Proof.
  intros Hl Hord.
  set (up := compareRecords {| key := k; direction := asc |}) in *.
  set (down := compareRecords {| key := k; direction := desc |}).
  pose proof (arraySort_sorted up l Hord) as Hup.
  pose proof (arraySort_sorted down l (strictOrderOn_desc k l Hl Hord)) as Hdown.
  pose proof Hord as (_ & _ & Hanti & _)%strictOrderOn_elem_of.
  apply (StronglySorted_unique_strong (flip (λ a b, up a b < 0))).
  - intros a b Ha Hb Hab Hba. exfalso.
    rewrite arraySort_perm in Ha. rewrite reverse_Permutation, arraySort_perm in Hb.
    by apply (strictOrderOn_asym up l a b).
  - eapply StronglySorted_on; [|exact Hdown].
    intros a b Ha Hb Hab. rewrite arraySort_perm in Ha, Hb.
    rewrite Forall_forall in Hl. unfold down in Hab.
    rewrite compareRecords_desc in Hab by auto.
    apply (Hanti b a Hb Ha). fold up in Hab. lia.
  - by apply StronglySorted_reverse.
  - by rewrite reverse_Permutation, !arraySort_perm.
Qed.

(** Rows whose values under [k] are numbers, no two the same, are
    strictly ordered by the ascending comparator. *)
Lemma strictOrderOn_distinct_numbers k l :
  Forall (λ r, typeof (getField r k) = TNumber) l →
  NoDup ((λ r, getField r k) <$> l) →
  strictOrderOn (compareRecords {| key := k; direction := asc |}) l.
Proof.
  intros Hnum Hnd. rewrite Forall_forall in Hnum.
  assert (∀ a b, a ∈ l → b ∈ l → getField a k = getField b k → a = b) as Hinj.
  { clear Hnum. induction l as [|x l IH]; intros a b Ha Hb E; [by inv Ha|].
    rewrite fmap_cons in Hnd. apply NoDup_cons in Hnd as [Hx Hnd].
    apply elem_of_cons in Ha as [->|Ha]; apply elem_of_cons in Hb as [->|Hb]; auto.
    - destruct Hx. rewrite E. by apply (list_elem_of_fmap_2 (λ r, getField r k)).
    - destruct Hx. rewrite <-E. by apply (list_elem_of_fmap_2 (λ r, getField r k)). }
  assert (∀ a b, a ∈ l → b ∈ l → ∃ x y,
            getField a k = VNum x ∧ getField b k = VNum y ∧
            compareRecords {| key := k; direction := asc |} a b = x - y) as Hcmp.
  { intros a b Ha%Hnum Hb%Hnum. unfold compareRecords, compareValues. simpl.
    destruct (getField a k) as [| | |x| |]; try done.
    destruct (getField b k) as [| | |y| |]; try done.
    exists x, y. split_and!; [done..|]. simpl.
    case_bool_decide; [lia|done]. }
  apply strictOrderOn_elem_of. split_and!.
  - by apply NoDup_fmap_1 in Hnd.
  - intros a b Ha Hb Hab.
    destruct (Hcmp a b Ha Hb) as (x & y & Ea & Eb & ->).
    intros Hxy. apply Hab, Hinj; [done..|]. rewrite Ea, Eb. f_equal. lia.
  - intros a b Ha Hb.
    destruct (Hcmp a b Ha Hb) as (x & y & Ea & Eb & ->).
    destruct (Hcmp b a Hb Ha) as (y' & x' & Eb' & Ea' & ->).
    assert (x' = x ∧ y' = y) as [-> ->] by (split; congruence). lia.
  - intros a b c Ha Hb Hc.
    destruct (Hcmp a b Ha Hb) as (x & y & Ea & Eb & ->).
    destruct (Hcmp b c Hb Hc) as (y' & z & Eb' & Ec & ->).
    destruct (Hcmp a c Ha Hc) as (x' & z' & Ea' & Ec' & ->).
    assert (x' = x ∧ y' = y ∧ z' = z) as (-> & -> & ->)
      by (split_and!; congruence). lia.
Qed.

Lemma nullsLast_sorted st data :
  nullsLast (key st) (arraySort (compareRecords st) data).
Proof.
  exists (arraySort (compareRecords st) (filter (hasValue (key st)) data)),
         (filter (λ r, ¬ hasValue (key st) r) data).
  split_and!.
  - apply arraySort_nulls_last.
  - rewrite arraySort_perm. apply Forall_forall.
    by intros r [? _]%list_elem_of_filter.
  - apply Forall_forall. by intros r [? _]%list_elem_of_filter.
Qed.
End Directions.

(** C3, as stated, fails on two rows with the same name: the sort is
    stable, so both directions keep them in input order. *)
Lemma reversalLaw_fails_on_ties :
  ¬ reversalLaw (H := codepointCollator) tiedRows "name".
Proof.
  intros [Hrev _].
  apply (f_equal (fmap (λ r, getField r "id"))) in Hrev.
  vm_compute in Hrev. discriminate.
Qed.

(** C3 (amended): when the comparator is a strict total order on the
    rows that have a value under [k] (no two of them tie), the
    descending view lists those rows in the reverse of their ascending
    order, and in both views the rows whose value is [null] or
    [undefined] come last. *)
Theorem sort_directions_reverse `{Collator} (data : list DataRecord) (k : string) :
  strictOrderOn (compareRecords {| key := k; direction := asc |})
    (filter (hasValue k) data) →
  reversalLaw data k.
Proof.
  intros Hord. unfold reversalLaw. simpl. split_and!.
  - rewrite (filter_hasValue_sorted {| key := k; direction := desc |}).
    rewrite (filter_hasValue_sorted {| key := k; direction := asc |}). simpl.
    apply arraySort_desc_reverse; [|done].
    apply Forall_forall. by intros r [? _]%list_elem_of_filter.
  - apply (nullsLast_sorted {| key := k; direction := asc |}).
  - apply (nullsLast_sorted {| key := k; direction := desc |}).
Qed.

Lemma sort_directions_reverse_witness :
  reversalLaw (H := codepointCollator) scenarioRows "name".
Proof.
  apply (sort_directions_reverse (H := codepointCollator) scenarioRows "name").
  apply (bool_decide_unpack _). vm_compute. exact I.
Defined.

(** ** The comparator, case by case *)

(** C1: a value that is [null] or [undefined] is ordered after a value
    that is neither, whatever the direction; two values that are
    neither are compared as strings when both are strings, by
    subtraction when both are numbers, and through [String(...)]
    otherwise, and only that result is negated when the direction is
    descending.  The collation is taken to compare a string as equal to
    itself. *)
Theorem comparator_cases `{Collator} (st : SortState) (a b : DataRecord) :
  (∀ s, localeCompare s s = 0) →
  let aValue := getField a (key st) in
  let bValue := getField b (key st) in
  (isNullish aValue = true → isNullish bValue = false →
     compareRecords st a b = 1 ∧ compareRecords st b a = -1) ∧
  (∀ s t, aValue = VStr s → bValue = VStr t →
     compareRecords st a b = directed (direction st) (localeCompare s t)) ∧
  (∀ x y, aValue = VNum x → bValue = VNum y →
     compareRecords st a b = directed (direction st) (x - y)) ∧
  (isNullish aValue = false → isNullish bValue = false →
   ¬ (typeof aValue = TString ∧ typeof bValue = TString) →
   ¬ (typeof aValue = TNumber ∧ typeof bValue = TNumber) →
     compareRecords st a b
     = directed (direction st)
         (localeCompare (toString aValue) (toString bValue))).
Proof.
  intros Hrefl aValue bValue. unfold compareRecords.
  fold aValue bValue. clearbody aValue bValue.
  assert (∀ d, directed d 0 = 0) as Hzero by (by intros []).
  split_and!.
  - intros Ha Hb. split.
    + unfold compareValues. rewrite Ha.
      destruct (strictEq aValue bValue) eqn:E; [|done].
      apply strictEq_isNullish in E. congruence.
    + by apply compareValues_nullish_r.
  - intros s t -> ->. unfold compareValues. simpl.
    case_bool_decide as E; [|by destruct (direction st)].
    subst. by rewrite Hrefl, Hzero.
  - intros x y -> ->. unfold compareValues. simpl.
    case_bool_decide as E; [|by destruct (direction st)].
    subst. by rewrite Z.sub_diag, Hzero.
  - intros Ha Hb Hs Hn. unfold compareValues. rewrite Ha, Hb.
    destruct (strictEq aValue bValue) eqn:E.
    + assert (toString aValue = toString bValue) as ->; [|by rewrite Hrefl, Hzero].
      destruct aValue, bValue; simpl in *; try done;
        by apply bool_decide_eq_true in E as ->.
    + destruct aValue, bValue; simpl in *; try done;
        try (by destruct (direction st)); tauto.
Qed.

Lemma codepointCompare_refl s : codepointCompare s s = 0.
Proof. induction s as [|c s IH]; simpl; [done|]. by rewrite N.compare_refl. Qed.

Lemma comparator_cases_witness :
  compareRecords (collator := codepointCollator)
    {| key := "name"; direction := desc |}
    (idName 3 VNull) (idName 1 (VStr "a")) = 1 ∧
  compareRecords (collator := codepointCollator)
    {| key := "name"; direction := desc |}
    (idName 1 (VStr "a")) (idName 3 VNull) = -1.
Proof.
  apply (comparator_cases (H := codepointCollator)
           {| key := "name"; direction := desc |}
           (idName 3 VNull) (idName 1 (VStr "a")) codepointCompare_refl);
    reflexivity.
Defined.

(** C10: with [null] under the key in one record and [undefined] in the
    other, each record is ordered after the other (the result is 1 both
    ways), so the comparator is not antisymmetric; two values that are
    [===] compare as 0. *)
Theorem comparator_null_undefined `{Collator} (st : SortState) :
  (∀ a b, getField a (key st) = VNull → getField b (key st) = VUndefined →
     compareRecords st a b = 1 ∧ compareRecords st b a = 1) ∧
  (∀ a b, strictEq (getField a (key st)) (getField b (key st)) = true →
     compareRecords st a b = 0) ∧
  ¬ (∀ a b, 0 < compareRecords st a b → compareRecords st b a < 0).
Proof.
  split_and!.
  - intros a b Ha Hb. unfold compareRecords, compareValues. by rewrite Ha, Hb.
  - intros a b E. unfold compareRecords, compareValues. by rewrite E.
  - intros Hanti.
    specialize (Hanti {[ key st := VNull ]} ∅). revert Hanti.
    unfold compareRecords, compareValues, getField.
    rewrite lookup_singleton_eq, lookup_empty. simpl. lia.
Qed.

Lemma comparator_null_undefined_witness :
  compareRecords (collator := codepointCollator)
    {| key := "name"; direction := asc |}
    (idName 1 VNull) {[ "id" := VNum 2 ]} = 1 ∧
  compareRecords (collator := codepointCollator)
    {| key := "name"; direction := asc |}
    {[ "id" := VNum 2 ]} (idName 1 VNull) = 1.
Proof.
  apply (comparator_null_undefined (H := codepointCollator)
           {| key := "name"; direction := asc |}); reflexivity.
Defined.

(** ** Pagination *)

(** [ceilDiv a b] is the least integer [n] with [a ≤ n * b]. *)
Lemma ceilDiv_spec (a b : Z) :
  0 < b → (ceilDiv a b - 1) * b < a ≤ ceilDiv a b * b.
Proof.
  intros Hb. destruct b as [|b|b]; try lia.
  unfold ceilDiv, Qceiling, Qfloor, Qdiv, Qmult, Qinv, Qopp, inject_Z. simpl.
  rewrite Z.mul_1_r, Pos.mul_1_l.
  pose proof (Z.div_mod (- a) (Z.pos b) ltac:(lia)) as Hdiv.
  pose proof (Z.mod_pos_bound (- a) (Z.pos b) ltac:(lia)) as Hmod.
  nia.
Qed.

Lemma ceilDiv_least (a b n : Z) : 0 < b → a ≤ n * b → ceilDiv a b ≤ n.
Proof. intros Hb Hn. pose proof (ceilDiv_spec a b Hb). nia. Qed.

(** C2: for a descriptor with [current ≥ 1], [pageSize > 0] and
    [total ≥ 0] the block shows [(current-1)*pageSize + 1] to
    [min(current*pageSize, total)] and a page count that is
    [ceil(total / pageSize)], the least [n] with [total ≤ n*pageSize];
    Previous is disabled exactly on page 1 and Next exactly when
    [current] has reached the page count; the block is part of what the
    component renders whenever it renders the table; for 5 entries in
    pages of 2, page 3 shows 5 to 5, of 3 pages, with Next disabled. *)
Theorem pagination_display `{Collator} (pg : Pagination) :
  1 ≤ current pg → 0 < pageSize pg → 0 ≤ total pg →
  let v := renderPagination pg in
  showingFrom v = (current pg - 1) * pageSize pg + 1 ∧
  showingTo v = Z.min (current pg * pageSize pg) (total pg) ∧
  (total pg ≤ pageCount v * pageSize pg ∧
   ∀ n, total pg ≤ n * pageSize pg → pageCount v ≤ n) ∧
  (previousDisabled v = true ↔ current pg = 1) ∧
  (nextDisabled v = true ↔ current pg >= pageCount v) ∧
  (∀ p s, loading p = false → data p ≠ [] → pagination p = Some pg →
     ∃ t, render p s = RenderTable t ∧ paginationView t = Some v) ∧
  renderPagination {| current := 3; pageSize := 2; total := 5 |}
  = {| showingFrom := 5; showingTo := 5; showingOf := 5;
       previousDisabled := false; pageNumber := 3; pageCount := 3;
       nextDisabled := true |}.
Proof.
  intros Hc Hs Ht v. split_and!; try done.
  - by apply ceilDiv_spec.
  - intros n Hn. by apply ceilDiv_least.
  - apply bool_decide_eq_true.
  - apply bool_decide_eq_true.
  - intros p s Hl Hd Hp. unfold render. rewrite Hl.
    rewrite bool_decide_eq_false_2 by (by destruct (data p)).
    eexists. split; [done|]. simpl. by rewrite Hp.
Qed.

Lemma pagination_display_witness :
  let v := renderPagination {| current := 3; pageSize := 2; total := 5 |} in
  showingFrom v = 5 ∧ showingTo v = 5 ∧ pageCount v = 3 ∧ nextDisabled v = true.
Proof.
  intros v.
  destruct (pagination_display (H := codepointCollator)
              {| current := 3; pageSize := 2; total := 5 |}
              ltac:(simpl; lia) ltac:(simpl; lia) ltac:(simpl; lia))
    as (Hfrom & Hto & [Hceil Hleast] & _ & Hnext & _ & _).
  cbn [current pageSize total] in Hfrom, Hto, Hceil, Hleast, Hnext.
  fold v in Hfrom, Hto, Hceil, Hleast, Hnext.
  specialize (Hleast 3 ltac:(lia)).
  assert (pageCount v = 3) as Hcount by lia.
  split_and!; [by rewrite Hfrom|by rewrite Hto|done|].
  apply Hnext. rewrite Hcount. lia.
Defined.

(** ** Header clicks *)

(** C6: a click on the header of a sortable column takes the sort state
    from none to ascending, from ascending to descending and from
    descending to none for the key of that column, and to ascending for
    that key when another key was sorted; a click on a column that is
    not sortable changes nothing. *)
Theorem header_click_cycle (column : Column) (s : State) :
  (col_sortable column = Some true →
     let up := {| key := col_key column; direction := asc |} in
     let down := {| key := col_key column; direction := desc |} in
     (sortState s = None → sortState (handleSort column s) = Some up) ∧
     (sortState s = Some up → sortState (handleSort column s) = Some down) ∧
     (sortState s = Some down → sortState (handleSort column s) = None) ∧
     (∀ st, sortState s = Some st → key st ≠ col_key column →
        sortState (handleSort column s) = Some up)) ∧
  (col_sortable column ≠ Some true → handleSort column s = s).
Proof.
  unfold handleSort, isSortable. split.
  - intros ->. simpl. split_and!.
    + by intros ->.
    + intros ->. simpl. by rewrite bool_decide_eq_true_2.
    + intros ->. simpl. by rewrite bool_decide_eq_true_2.
    + intros st -> Hne. simpl. by rewrite bool_decide_eq_false_2.
  - intros Hno. by destruct (col_sortable column) as [[]|].
Qed.

Lemma header_click_cycle_witness :
  let name := {| col_key := "name"; col_title := "Name";
                 col_dataIndex := "name"; col_sortable := Some true |} in
  sortState (handleSort name initialState)
  = Some {| key := "name"; direction := asc |} ∧
  sortState (handleSort name (handleSort name initialState))
  = Some {| key := "name"; direction := desc |} ∧
  sortState (handleSort name (handleSort name (handleSort name initialState)))
  = None.
Proof.
  intros name.
  assert (col_sortable name = Some true) as Hs by reflexivity.
  split_and!.
  - by apply (header_click_cycle name initialState).
  - by apply (header_click_cycle name (handleSort name initialState)).
  - by apply (header_click_cycle name (handleSort name (handleSort name initialState))).
Defined.

(** ** Selection *)

Section SelectionFacts.
Context {A : Type}.

Lemma filterFrom_sublist (p : A → nat → bool) i l : filterFrom p i l `sublist_of` l.
Proof.
  revert i. induction l as [|x l IH]; intros i; simpl; [done|].
  destruct (p x i); [by apply sublist_skip|by apply sublist_cons].
Qed.

Lemma filterFrom_indexed (p : A → nat → bool) i l :
  filterFrom p i l
  = snd <$> filter (λ jx : nat * A, p jx.2 jx.1 = true)
                   (imap (λ j x, (i + j, x)%nat) l).
Proof.
  revert i. induction l as [|x l IH]; intros i; [done|].
  rewrite imap_cons. simpl filterFrom. rewrite Nat.add_0_r.
  rewrite (imap_ext _ (λ j x, (S i + j, x)%nat)) by (intros; simpl; f_equal; lia).
  destruct (p x i) eqn:E.
  - rewrite filter_cons_True by done. rewrite fmap_cons. simpl. f_equal. apply IH.
  - rewrite filter_cons_False by (simpl; congruence). apply IH.
Qed.
End SelectionFacts.

Lemma filterIndexed_selected (rk : option RowKey) (sel : gset string)
  (view : list DataRecord) :
  filterIndexed (λ record index, bool_decide (getRowKey rk record index ∈ sel)) view
  = selectedInViewOrder rk sel view.
Proof.
  unfold filterIndexed, selectedInViewOrder. rewrite filterFrom_indexed.
  f_equal. apply list_filter_iff. intros [j x]. simpl.
  by rewrite bool_decide_eq_true.
Qed.

(** C4: select-all makes the set hold exactly the identities of the
    rows of the current sorted view and passes that whole view to the
    callback; select-none empties the set and passes an empty list; so
    select-all followed by select-none leaves the set empty.  The
    callback is called when one is registered. *)
Theorem select_all_then_none `{Collator} (p : Props) (s : State) :
  let view := sortedData (data p) (sortState s) in
  let on := handleSelectAll p s true in
  let off := handleSelectAll p s false in
  let both := handleSelectAll p on.1 false in
  (∀ k, k ∈ selectedRows on.1 ↔
        ∃ i r, view !! i = Some r ∧ getRowKey (rowKey p) r i = k) ∧
  selectAll on.1 = true ∧
  on.2 = (if onRowSelect p then [view] else []) ∧
  selectedRows off.1 = ∅ ∧
  selectAll off.1 = false ∧
  off.2 = (if onRowSelect p then [[]] else []) ∧
  selectedRows both.1 = ∅ ∧
  both.2 = (if onRowSelect p then [[]] else []).
Proof.
  intros view on off both. split_and!; try done.
  intros k. simpl. rewrite elem_of_list_to_set. unfold rowKeys.
  rewrite elem_of_lookup_imap. fold view. naive_solver.
Qed.

(** C5: toggling a row adds its identity to the set or removes it from
    the set, whether or not the identity belongs to a row of the view;
    the all-selected flag becomes whether the size of the new set is
    the length of the current sorted view; a registered callback
    receives the records of the view whose identity is in the new set,
    in the order of the view. *)
Theorem toggle_row `{Collator} (p : Props) (s : State) (i : string)
  (checked : bool) :
  let view := sortedData (data p) (sortState s) in
  let result := handleRowSelect p s i checked in
  let newSet := selectedRows result.1 in
  newSet = (if checked then selectedRows s ∪ {[ i ]} else selectedRows s ∖ {[ i ]}) ∧
  selectAll result.1 = bool_decide (size newSet = length view) ∧
  sortState result.1 = sortState s ∧
  result.2 = (if onRowSelect p
              then [selectedInViewOrder (rowKey p) newSet view] else []) ∧
  selectedInViewOrder (rowKey p) newSet view `sublist_of` view.
Proof.
  intros view result newSet. subst result newSet. unfold handleRowSelect.
  fold view. rewrite <-filterIndexed_selected.
  destruct (onRowSelect p); simpl; (split_and!; [done..|]);
    apply filterFrom_sublist.
Qed.

(** ** The sorted view and the caller's array *)

(** C7: with no sort state the memo body hands back the caller's own
    array, so the view is the input in its order; with a sort state it
    sorts a copy.  Either way every array that existed before, the
    caller's among them, holds what it held, and the hooks of the
    component (the selection set among them) are as they were. *)
Theorem sorted_view_frame `{Collator} (w : World) (dataRef : positive)
  (rows0 : list DataRecord) (st : option SortState) :
  arrays w !! dataRef = Some rows0 →
  ∃ ref w',
    sortedDataM dataRef st w = Some (ref, w') ∧
    arrays w' !! ref = Some (sortedData rows0 st) ∧
    (st = None → ref = dataRef ∧ w' = w ∧ sortedData rows0 st = rows0) ∧
    arrays w' !! dataRef = Some rows0 ∧
    (∀ r xs, arrays w !! r = Some xs → arrays w' !! r = Some xs) ∧
    selectedRows (hooks w') = selectedRows (hooks w) ∧
    hooks w' = hooks w.
Proof.
  intros Hdata. destruct st as [st|]; simpl.
  - set (copy := fresh (dom (arrays w))).
    assert (arrays w !! copy = None) as Hfresh.
    { apply not_elem_of_dom. apply is_fresh. }
    assert (copy ≠ dataRef) as Hne by congruence.
    exists copy. eexists. split_and!.
    + unfold sortedDataM, spread, sortInPlace, mbind, M_bind, mret, M_ret.
      unfold readArray at 1. rewrite Hdata. unfold allocArray. fold copy.
      unfold readArray, writeArray. cbn [arrays hooks].
      rewrite lookup_insert_eq. cbn [arrays hooks].
      rewrite lookup_insert_eq. reflexivity.
    + simpl. by rewrite lookup_insert_eq.
    + done.
    + simpl. by rewrite !lookup_insert_ne.
    + intros r xs Hr. simpl.
      assert (copy ≠ r) by congruence. by rewrite !lookup_insert_ne.
    + done.
    + done.
  - exists dataRef, w. by split_and!.
Qed.

Lemma sorted_view_frame_witness :
  let w := {| arrays := {[ 1%positive := scenarioRows ]};
              hooks := initialState |} in
  ∃ ref w',
    sortedDataM (collator := codepointCollator) 1
      (Some {| key := "name"; direction := asc |}) w = Some (ref, w') ∧
    arrays w' !! 1%positive = Some scenarioRows.
Proof.
  intros w.
  destruct (sorted_view_frame (H := codepointCollator) w 1 scenarioRows
              (Some {| key := "name"; direction := asc |}) eq_refl)
    as (ref & w' & Hrun & _ & _ & Hkept & _).
  exists ref, w'. by split.
Defined.

(** ** The selection set across steps *)

Section TransitionFacts.
Context {collator : Collator}.

Lemma sortedData_perm rows st : sortedData rows st ≡ₚ rows.
Proof. destruct st; simpl; [apply arraySort_perm|done]. Qed.

(** The identities of a view do not depend on the order of its rows. *)
Lemma rowKeys_perm rk (v v' : list DataRecord) :
  v ≡ₚ v' → list_to_set (rowKeys rk v) =@{gset string} list_to_set (rowKeys rk v').
Proof.
  intros E. apply leibniz_equiv. unfold rowKeys.
  assert (∀ f : DataRecord → string,
            list_to_set (imap (λ _ r, f r) v)
            ≡@{gset string} list_to_set (imap (λ _ r, f r) v')) as Hrec.
  { intros f. rewrite !(imap_const f). by rewrite E. }
  assert (list_to_set (imap (λ (i : nat) (_ : DataRecord), pretty i) v)
          ≡@{gset string}
          list_to_set (imap (λ (i : nat) (_ : DataRecord), pretty i) v')) as Hidx.
  { rewrite !imap_seq_0. by rewrite (Permutation_length E). }
  destruct rk as [[field|fn]|]; simpl; [|apply Hrec|apply Hidx].
  destruct (decide (field = "")); [apply Hidx|apply Hrec].
Qed.

Lemma viewKeys_data p s :
  viewKeys p s = list_to_set (rowKeys (rowKey p) (data p)).
Proof. apply rowKeys_perm, sortedData_perm. Qed.

Lemma elem_of_viewKeys p s i r :
  sortedData (data p) (sortState s) !! i = Some r →
  getRowKey (rowKey p) r i ∈ viewKeys p s.
Proof.
  intros Hi. unfold viewKeys, rowKeys. apply elem_of_list_to_set.
  by apply (elem_of_lookup_imap_2 (λ index record, getRowKey (rowKey p) record index)).
Qed.

(** What a dispatched event was and did. *)
Lemma dispatch_Some p s e s' calls :
  dispatch p s e = Some (s', calls) →
  loading p = false ∧ data p ≠ [] ∧
  match e with
  | HeaderClick column => column ∈ columns p ∧ (s', calls) = (handleSort column s, [])
  | RowCheckbox i checked =>
      selectable p = true ∧
      ∃ r, sortedData (data p) (sortState s) !! i = Some r ∧
           (s', calls) = handleRowSelect p s (getRowKey (rowKey p) r i) checked
  | SelectAllCheckbox checked =>
      selectable p = true ∧ (s', calls) = handleSelectAll p s checked
  end.
Proof.
  unfold dispatch, render. destruct (loading p); [done|].
  case_bool_decide as Hlen; [done|].
  intros Hd. split; [done|]. split; [by intros Hnil; rewrite Hnil in Hlen|].
  revert Hd. cbn [headers headerCheckbox rows].
  destruct e as [column|i checked|checked].
  - case_bool_decide; [|done]. by intros [= <- <-].
  - destruct (selectable p); [|done]. rewrite list_lookup_imap.
    destruct (sortedData (data p) (sortState s) !! i) as [r|] eqn:Hi; [|done].
    simpl. intros [= E]. split; [done|]. by exists r.
  - destruct (selectable p); [|done]. by intros [= E].
Qed.
End TransitionFacts.


Section SelectionInvariant.
Context {collator : Collator}.

Lemma viewKeys_sameRows p p' s s' :
  data p' = data p → rowKey p' = rowKey p → viewKeys p' s' = viewKeys p s.
Proof. intros Hd Hk. rewrite !viewKeys_data. by rewrite Hd, Hk. Qed.

(** A step on which the parent keeps the rows keeps the selection
    inside the identities of the view. *)
Lemma perform_within_view p0 c a c' :
  sameRows p0 c.1 →
  match a with User _ => True | Parent p' => sameRows p0 p' end →
  selectedRows c.2 ⊆ viewKeys c.1 c.2 →
  perform c a = Some c' →
  sameRows p0 c'.1 ∧ selectedRows c'.2 ⊆ viewKeys c'.1 c'.2.
Proof.
  destruct c as [p s]. intros Hsame Ha Hin. simpl in *.
  destruct a as [e|p']; simpl.
  - destruct (dispatch p s e) as [[s' calls]|] eqn:Hd; [|done].
    intros [= <-]. simpl. split; [done|].
    apply dispatch_Some in Hd as (_ & _ & He).
    destruct e as [column|i checked|checked].
    + destruct He as [_ [= -> _]].
      rewrite (viewKeys_sameRows p p s (handleSort column s)) by done.
      unfold handleSort. by destruct (negb (isSortable column)).
    + destruct He as (_ & r & Hi & E).
      apply elem_of_viewKeys in Hi.
      assert (selectedRows s' ⊆ selectedRows s ∪ {[ getRowKey (rowKey p) r i ]}
              ∧ sortState s' = sortState s) as [Hs' Hst].
      { revert E. unfold handleRowSelect.
        destruct (onRowSelect p), checked; intros [= -> _]; simpl;
          split; set_solver. }
      rewrite (viewKeys_sameRows p p s s') by done. set_solver.
    + destruct He as [_ E]. revert E. unfold handleSelectAll.
      destruct checked; intros [= -> _]; simpl; [|set_solver].
      by rewrite (viewKeys_sameRows p p s _).
  - intros [= <-]. simpl. split; [done|].
    destruct Hsame as [Hd Hk], Ha as [Hd' Hk'].
    rewrite (viewKeys_sameRows p p' s s); [done|congruence..].
Qed.

End SelectionInvariant.



(** Unchecking the only selected row empties the set, and the event is
    not the header checkbox. *)
Lemma last_row_unchecked :
  ¬ selectionResetOnlyBySelectAll (H := codepointCollator).
Proof.
  intros [_ Honly].
  destruct (Honly
    (propsOf [idName 1 (VStr "a")],
     {| sortState := None; selectedRows := {[ "1" ]}; selectAll := true |})
    (User (RowCheckbox 0 false))
    (propsOf [idName 1 (VStr "a")],
     {| sortState := None; selectedRows := ∅; selectAll := false |}))
    as [checked [=]].
  - vm_compute. reflexivity.
  - apply (bool_decide_unpack _). vm_compute. exact I.
  - reflexivity.
Qed.

(** Select-all on the new collection replaces the set by the
    identities of the new rows: the identity "1" is gone although the
    header checkbox was never unchecked. *)
Lemma select_all_drops_stale_identity :
  ¬ keptUntilSelectNone (H := codepointCollator).
Proof.
  intros Hkept.
  specialize (Hkept (propsOf [idName 1 (VStr "a")]) initialState 0%nat
                (idName 1 (VStr "a"))
                (propsOf [idName 1 (VStr "a")],
                 {| sortState := None; selectedRows := {[ "1" ]};
                    selectAll := true |})
                (propsOf [idName 2 (VStr "b")])
                [User (SelectAllCheckbox true)]
                (propsOf [idName 2 (VStr "b")],
                 {| sortState := None; selectedRows := {[ "2" ]};
                    selectAll := true |})
                eq_refl).
  assert ("1" ∉ ({[ "2" ]} : gset string)) as Hgone by set_solver.
  apply Hgone, Hkept.
  - vm_compute. reflexivity.
  - apply (bool_decide_unpack _). vm_compute. exact I.
  - repeat constructor.
  - repeat constructor.
  - vm_compute. reflexivity.
Qed.

(** C9, as stated, fails twice: after the records are replaced,
    select-all (not only select-none) removes the identity selected
    before, and unchecking the only selected row empties the set
    without the header checkbox. *)
Lemma selection_claim_fails :
  ¬ keptUntilSelectNone (H := codepointCollator) ∧
  ¬ selectionResetOnlyBySelectAll (H := codepointCollator).
Proof. split; [apply select_all_drops_stale_identity|apply last_row_unchecked]. Qed.

Section StaleIdentity.
Context {collator : Collator}.

Lemma lacksIdentity_viewKeys k p s : lacksIdentity k p → k ∉ viewKeys p s.
Proof. unfold lacksIdentity. by rewrite !viewKeys_data. Qed.

(** A step that is not the header checkbox, on a view that lacks [k],
    keeps [k] in the set. *)
Lemma perform_keeps_stale k c a c' :
  lacksIdentity k c.1 →
  match a with User _ => True | Parent p' => lacksIdentity k p' end →
  isSelectAllEvent a = false →
  k ∈ selectedRows c.2 →
  perform c a = Some c' →
  lacksIdentity k c'.1 ∧ k ∈ selectedRows c'.2.
Proof.
  destruct c as [p s]. simpl. intros Hlacks Ha Hev Hk.
  destruct a as [e|p']; simpl.
  - destruct (dispatch p s e) as [[s' calls]|] eqn:Hd; [|done].
    intros [= <-]. simpl. split; [done|].
    apply dispatch_Some in Hd as (_ & _ & He).
    destruct e as [column|i checked|checked]; [| |done].
    + destruct He as [_ [= -> _]]. unfold handleSort.
      by destruct (negb (isSortable column)).
    + destruct He as (_ & r & Hi & E).
      assert (getRowKey (rowKey p) r i ≠ k) as Hne.
      { intros <-. apply (lacksIdentity_viewKeys _ p s Hlacks).
        by apply elem_of_viewKeys. }
      revert E. unfold handleRowSelect.
      destruct (onRowSelect p), checked; intros [= -> _]; simpl; set_solver.
  - by intros [= <-].
Qed.

Lemma run_keeps_stale k actions c c' :
  lacksIdentity k c.1 →
  staysLacking k actions →
  Forall (λ a, isSelectAllEvent a = false) actions →
  k ∈ selectedRows c.2 →
  run c actions = Some c' →
  lacksIdentity k c'.1 ∧ k ∈ selectedRows c'.2.
Proof.
  intros Hlacks Hstays. revert c Hlacks.
  induction Hstays as [|a actions Ha _ IH]; intros c Hlacks Hev Hk; simpl.
  - by intros [= <-].
  - apply Forall_cons in Hev as [Hev Hevs].
    destruct (perform c a) as [c1|] eqn:Hstep; [|done].
    destruct (perform_keeps_stale k c a c1) as [Hlacks1 Hk1]; auto.
    by apply IH.
Qed.

(** The header checkbox, checked or unchecked, on a view that lacks
    [k] leaves [k] out of the set. *)
Lemma select_all_removes_stale k p s checked c' :
  lacksIdentity k p →
  perform (p, s) (User (SelectAllCheckbox checked)) = Some c' →
  k ∉ selectedRows c'.2.
Proof.
  intros Hlacks. simpl.
  destruct (dispatch p s (SelectAllCheckbox checked)) as [[s' calls]|] eqn:Hd;
    [|done].
  intros [= <-]. simpl.
  apply dispatch_Some in Hd as (_ & _ & _ & E). revert E.
  unfold handleSelectAll. destruct checked; intros [= -> _]; simpl.
  - by apply (lacksIdentity_viewKeys k p s).
  - set_solver.
Qed.
End StaleIdentity.

(** C9 (amended): new props from the parent, a new record collection
    among them, leave the selection set as it is; an identity selected
    from a row of the view is still in the set after the records are
    replaced by a collection without that identity, and stays there
    whatever the user clicks and whatever further collections without
    it the parent supplies, until the header checkbox is used:
    select-all as well as select-none then removes it; a non-empty set
    becomes empty only through the select-all checkbox or when the
    user unchecks the only selected row, never on a change of props. *)
Theorem selection_reset_only_by_user `{Collator} :
  (∀ c p' c', perform c (Parent p') = Some c' →
     c'.1 = p' ∧ selectedRows c'.2 = selectedRows c.2) ∧
  (∀ p s i r c1 p' actions c2,
     sortedData (data p) (sortState s) !! i = Some r →
     perform (p, s) (User (RowCheckbox i true)) = Some c1 →
     let k := getRowKey (rowKey p) r i in
     lacksIdentity k p' →
     staysLacking k actions →
     Forall (λ a, isSelectAllEvent a = false) actions →
     run (p', c1.2) actions = Some c2 →
     k ∈ selectedRows c2.2 ∧
     ∀ checked c3,
       perform c2 (User (SelectAllCheckbox checked)) = Some c3 →
       k ∉ selectedRows c3.2) ∧
  (∀ c a c', perform c a = Some c' →
     selectedRows c.2 ≠ ∅ → selectedRows c'.2 = ∅ →
     (∃ checked, a = User (SelectAllCheckbox checked)) ∨
     (∃ i r, a = User (RowCheckbox i false) ∧
             sortedData (data c.1) (sortState c.2) !! i = Some r ∧
             selectedRows c.2 = {[ getRowKey (rowKey c.1) r i ]})).
Proof.
  split_and!.
  - intros c p' c' [= <-]. done.
  - intros p s i r c1 p' actions c2 Hi Hstep k Hlacks Hstays Hev Hrun.
    simpl in Hstep.
    destruct (dispatch p s (RowCheckbox i true)) as [[s1 calls]|] eqn:Hd; [|done].
    injection Hstep as <-. simpl in Hrun.
    apply dispatch_Some in Hd as (_ & _ & _ & r' & Hi' & E).
    assert (r' = r) as -> by congruence.
    assert (k ∈ selectedRows s1) as Hk.
    { revert E. unfold handleRowSelect.
      destruct (onRowSelect p); intros [= -> _]; simpl; set_solver. }
    destruct (run_keeps_stale k actions (p', s1) c2) as [Hlacks2 Hk2]; auto.
    split; [done|]. intros checked c3 Hc3. destruct c2 as [p2 s2].
    by apply (select_all_removes_stale k p2 s2 checked c3).
  - intros [p s] a c' Hstep Hne Hempty. simpl in *.
    destruct a as [e|p']; simpl in Hstep.
    + destruct (dispatch p s e) as [[s' calls]|] eqn:Hd; [|done].
      injection Hstep as <-. simpl in Hempty.
      apply dispatch_Some in Hd as (_ & _ & He).
      destruct e as [column|i checked|checked].
      * destruct He as [_ [= -> _]]. exfalso. apply Hne. revert Hempty.
        unfold handleSort. by destruct (negb (isSortable column)).
      * destruct He as (_ & r & Hi & E). right.
        assert (selectedRows s'
                = if checked then selectedRows s ∪ {[ getRowKey (rowKey p) r i ]}
                  else selectedRows s ∖ {[ getRowKey (rowKey p) r i ]}) as Hs'.
        { revert E. unfold handleRowSelect.
          by destruct (onRowSelect p); intros [= -> _]. }
        rewrite Hempty in Hs'. destruct checked; [set_solver|].
        exists i, r. split_and!; [done..|].
        apply set_eq. intros x. rewrite elem_of_singleton. split.
        -- intros Hx. destruct (decide (x = getRowKey (rowKey p) r i)); [done|].
           set_solver.
        -- intros ->.
           destruct (decide (getRowKey (rowKey p) r i ∈ selectedRows s)); [done|].
           exfalso. apply Hne. set_solver.
      * left. by exists checked.
    + injection Hstep as <-. simpl in Hempty. by destruct Hne.
Qed.

Lemma selection_reset_only_by_user_witness :
  let rows1 := [idName 1 (VStr "a")] in
  let rows2 := [idName 2 (VStr "b"); idName 3 (VStr "c")] in
  let c2 := (propsOf rows2,
             {| sortState := Some {| key := "name"; direction := asc |};
                selectedRows := {[ "1"; "3" ]}; selectAll := true |}) in
  "1" ∈ selectedRows c2.2 ∧
  ∀ checked c3,
    perform (collator := codepointCollator) c2 (User (SelectAllCheckbox checked))
    = Some c3 →
    "1" ∉ selectedRows c3.2.
Proof.
  intros rows1 rows2 c2.
  pose proof (selection_reset_only_by_user (H := codepointCollator))
    as (_ & Hkept & _).
  set (c1 := (propsOf rows1,
              {| sortState := None; selectedRows := {[ "1" ]}; selectAll := true |})).
  assert (perform (collator := codepointCollator) (propsOf rows1, initialState)
            (User (RowCheckbox 0 true)) = Some c1) as Hc1.
  { vm_compute. reflexivity. }
  set (actions := [User (RowCheckbox 0 true); User (RowCheckbox 1 true);
                   User (HeaderClick nameColumn); User (RowCheckbox 0 false);
                   Parent (propsOf rows2)]).
  assert (run (collator := codepointCollator) (propsOf rows2, c1.2) actions
          = Some c2) as Hc2.
  { vm_compute. reflexivity. }
  assert (lacksIdentity (H := codepointCollator) "1" (propsOf rows2)) as Hlacks.
  { apply (bool_decide_unpack _). vm_compute. exact I. }
  apply (Hkept (propsOf rows1) initialState 0%nat (idName 1 (VStr "a"))
           c1 (propsOf rows2) actions c2 eq_refl Hc1 Hlacks); [| |exact Hc2].
  - repeat constructor. exact Hlacks.
  - repeat constructor.
Defined.

(** * Further properties of the component *)

(** ** The sort on a strict weak order *)

Section WeakOrderFacts.
Context {A : Type} (cmp : A → A → Z).

Lemma weakOrderOn_elem_of l :
  weakOrderOn cmp l ↔
    (∀ a b, a ∈ l → b ∈ l → cmp a b < 0 → ¬ cmp b a < 0) ∧
    (∀ a b c, a ∈ l → b ∈ l → c ∈ l →
       ¬ cmp a b < 0 → ¬ cmp b c < 0 → ¬ cmp a c < 0).
Proof.
  unfold weakOrderOn. repeat setoid_rewrite Forall_forall.
  split; intros [? ?]; split; eauto.
Qed.

Lemma weakOrderOn_subseteq l l' :
  l' ⊆ l → weakOrderOn cmp l → weakOrderOn cmp l'.
Proof.
  intros Hsub. rewrite !weakOrderOn_elem_of. intros [Hasym Hneg]. split.
  - intros a b ? ?. apply Hasym; auto.
  - intros a b c ? ? ?. apply Hneg; auto.
Qed.

Lemma weakOrderOn_trans l a b c :
  weakOrderOn cmp l → a ∈ l → b ∈ l → c ∈ l →
  cmp a b < 0 → cmp b c < 0 → cmp a c < 0.
Proof.
  rewrite weakOrderOn_elem_of. intros [Hasym Hneg] Ha Hb Hc Hab Hbc.
  destruct (decide (cmp a c < 0)) as [|Hac]; [done|].
  destruct (Hneg a c b Ha Hc Hb Hac); [|done].
  by apply Hasym.
Qed.

Lemma sortInsert_inOrder x l :
  weakOrderOn cmp (x :: l) → inOrder cmp l → inOrder cmp (sortInsert cmp x l).
Proof.
  unfold inOrder. intros Hord Hs.
  induction Hs as [|y l Hs IH Hy]; simpl.
  - repeat constructor.
  - pose proof Hord as [Hasym _]%weakOrderOn_elem_of.
    case_decide as Hxy.
    + constructor; [by constructor|].
      constructor; [apply Hasym; [set_solver..|done]|].
      rewrite Forall_forall in Hy |- *. intros z Hz Hzx.
      apply (Hy z Hz).
      apply (weakOrderOn_trans (x :: y :: l) z x y); [done|set_solver..|done|done].
    + constructor.
      * apply IH. eapply weakOrderOn_subseteq; [|exact Hord]. set_solver.
      * rewrite sortInsert_perm. by constructor.
Qed.

Lemma sortInto_inOrder acc l :
  weakOrderOn cmp (acc ++ l) → inOrder cmp acc → inOrder cmp (sortInto cmp acc l).
Proof.
  revert acc. induction l as [|x l IH]; intros acc Hord Hs; simpl; [done|].
  apply IH.
  - eapply weakOrderOn_subseteq; [|exact Hord].
    intros z. rewrite !elem_of_app, sortInsert_perm. set_solver.
  - apply sortInsert_inOrder; [|done].
    eapply weakOrderOn_subseteq; [|exact Hord]. set_solver.
Qed.

Lemma arraySort_inOrder l :
  weakOrderOn cmp l → inOrder cmp (arraySort cmp l).
Proof. intros Hord. apply sortInto_inOrder; [done|constructor]. Qed.

(** What is in order already is appended element by element. *)
Lemma sortInto_fixed acc l :
  inOrder cmp (acc ++ l) → sortInto cmp acc l = acc ++ l.
Proof.
  revert acc. induction l as [|x l IH]; intros acc Hs; simpl.
  - by rewrite app_nil_r.
  - rewrite sortInsert_last.
    + rewrite IH; rewrite <-(assoc_L (++)); done.
    + apply Forall_forall. intros y Hy.
      apply (StronglySorted_app_1_elem_of _ acc (x :: l) y x Hs); [done|by left].
Qed.

Lemma arraySort_fixed l : inOrder cmp l → arraySort cmp l = l.
Proof. intros Hs. by apply (sortInto_fixed []). Qed.

Lemma filter_none (P : A → Prop) `{∀ a, Decision (P a)} l :
  Forall (λ y, ¬ P y) l → filter P l = [].
Proof. induction 1; [done|]. by rewrite filter_cons_False. Qed.



End WeakOrderFacts.

Lemma StronglySorted_lookup {A : Type} (R : relation A) l (i j : nat) a b :
  StronglySorted R l → (i < j)%nat → l !! i = Some a → l !! j = Some b → R a b.
Proof.
  intros Hs. revert i j. induction Hs as [|x l Hs IH Hx]; intros i j Hij Hi Hj.
  { by rewrite lookup_nil in Hi. }
  destruct j as [|j]; [lia|]. destruct i as [|i]; simpl in *.
  - injection Hi as ->. rewrite Forall_forall in Hx. apply Hx.
    by eapply list_elem_of_lookup_2.
  - apply (IH i j); [lia|done..].
Qed.

Section SortedViewFacts.
Context {collator : Collator}.

(** On a column of integers, with or without missing values, the
    comparator is a strict weak order in either direction. *)
Lemma weakOrderOn_integers k d l :
  Forall (integerOrNullish k) l →
  weakOrderOn (compareRecords {| key := k; direction := d |}) l.
Proof.
  intros Hl. rewrite Forall_forall in Hl. apply weakOrderOn_elem_of.
  unfold compareRecords, compareValues. simpl. split.
  - intros a b Ha%Hl Hb%Hl. revert Ha Hb. unfold integerOrNullish.
    destruct (getField a k), (getField b k); simpl;
      intros [[? ?]|?] [[? ?]|?];
      try done; repeat case_bool_decide; destruct d; simpl; lia.
  - intros a b c Ha%Hl Hb%Hl Hc%Hl. revert Ha Hb Hc. unfold integerOrNullish.
    destruct (getField a k), (getField b k), (getField c k); simpl;
      intros [[? ?]|?] [[? ?]|?] [[? ?]|?];
      try done; repeat case_bool_decide; destruct d; simpl; lia.
Qed.
End SortedViewFacts.

(** X1: the sorted view holds the records of the input, each as often
    as the input does, whatever the sort state: sorting neither drops
    nor repeats a row. *)
Theorem sorted_view_rearranges `{Collator} (rows0 : list DataRecord)
  (st : option SortState) :
  sortedData rows0 st ≡ₚ rows0 ∧
  length (sortedData rows0 st) = length rows0 ∧
  ∀ r, r ∈ sortedData rows0 st ↔ r ∈ rows0.
Proof.
  assert (sortedData rows0 st ≡ₚ rows0) as E.
  { destruct st; simpl; [apply arraySort_perm|done]. }
  split_and!; [done|by rewrite E|]. intros r. by rewrite E.
Qed.



(** X3: the comparator reads the field named by the key of the sort
    state; when no record has that field, all values are [undefined]
    and the view is the input in its order, in either direction. *)
Theorem sort_by_absent_field `{Collator} (rows0 : list DataRecord)
  (st : SortState) :
  Forall (λ r, r !! key st = None) rows0 →
  sortedData rows0 (Some st) = rows0.
Proof.
  intros Habsent. simpl. apply arraySort_fixed. unfold inOrder.
  induction Habsent as [|x l Hx Hl IH]; constructor; [done|].
  eapply Forall_impl; [exact Hl|]. intros y Hy. simpl in Hy.
  unfold compareRecords, compareValues, getField. rewrite Hx, Hy. simpl. lia.
Qed.

Lemma sort_by_absent_field_witness :
  sortedData (collator := codepointCollator) scenarioRows
    (Some {| key := "email"; direction := desc |}) = scenarioRows.
Proof.
  apply (sort_by_absent_field (H := codepointCollator)).
  repeat constructor.
Defined.

(** X4: when the comparator is a strict weak order on the records, no
    row of the sorted view compares below a row before it. *)
Theorem sorted_view_in_order `{Collator} (rows0 : list DataRecord)
  (st : SortState) :
  weakOrderOn (compareRecords st) rows0 →
  inOrder (compareRecords st) (sortedData rows0 (Some st)).
Proof. intros Hord. simpl. by apply arraySort_inOrder. Qed.

Lemma sorted_view_in_order_witness :
  inOrder (compareRecords (collator := codepointCollator)
             {| key := "name"; direction := desc |})
    (sortedData (collator := codepointCollator) scenarioRows
       (Some {| key := "name"; direction := desc |})).
Proof.
  apply (sorted_view_in_order (H := codepointCollator)).
  apply (bool_decide_unpack _). vm_compute. exact I.
Defined.





(** X7: on a column that holds integer-valued numbers, [null] and
    [undefined] only (so no [NaN], which is a number too and compares
    as a tie with everything), the numbers of the ascending view never
    decrease from one row to a later row, and those of the descending
    view never increase. *)
Theorem numeric_column_sorted `{Collator} (rows0 : list DataRecord) (k : string)
  (d : Direction) (i j : nat) (a b : DataRecord) (x y : Z) :
  Forall (integerOrNullish k) rows0 →
  let view := sortedData rows0 (Some {| key := k; direction := d |}) in
  (i < j)%nat →
  view !! i = Some a → view !! j = Some b →
  getField a k = VNum x → getField b k = VNum y →
  match d with asc => x ≤ y | desc => y ≤ x end.
Proof.
  intros Hnum view Hij Hi Hj Ha Hb.
  pose proof (arraySort_inOrder _ rows0 (weakOrderOn_integers k d rows0 Hnum)) as Hs.
  pose proof (StronglySorted_lookup _ _ i j a b Hs Hij Hi Hj) as Hba.
  simpl in Hba. revert Hba. unfold compareRecords, compareValues. simpl.
  rewrite Ha, Hb. simpl. case_bool_decide; destruct d; simpl; lia.
Qed.

Lemma numeric_column_sorted_witness :
  let rows0 := [idName 3 VNull; idName 2 (VStr "b"); idName 1 (VStr "a")] in
  (1 ≤ 2)%Z.
Proof.
  intros rows0.
  apply (numeric_column_sorted (H := codepointCollator) rows0 "id" asc 0 1
           (idName 1 (VStr "a")) (idName 2 (VStr "b")) 1 2).
  - repeat (constructor; [left; eexists; reflexivity|]). constructor.
  - lia.
  - vm_compute. reflexivity.
  - vm_compute. reflexivity.
  - reflexivity.
  - reflexivity.
Defined.

(** ** Sort icons *)

(** X8: a click on a header moves the icon of that column one step
    along both arrows, up, down, both arrows; a column that is not
    sortable has no icon before or after. *)
Theorem sort_icon_follows_clicks (column : Column) (s : State) :
  getSortIcon column (handleSort column s) = nextIcon <$> getSortIcon column s.
Proof.
  unfold getSortIcon, handleSort.
  destruct (isSortable column); simpl; [|done].
  destruct (sortState s) as [[k d]|]; simpl.
  - case_bool_decide as Hk; simpl.
    + destruct d; simpl; [|done]. by rewrite bool_decide_eq_true_2.
    + by rewrite bool_decide_eq_true_2.
  - by rewrite bool_decide_eq_true_2.
Qed.

(** X9: columns with different keys never show a direction at the same
    time, a click on a sortable header leaves every column with another
    key without a direction, and two sortable columns that share a key
    always show the same icon. *)
Theorem one_direction_per_key (c1 c2 : Column) (s : State) :
  (col_key c1 ≠ col_key c2 →
     ¬ (showsDirection (getSortIcon c1 s) ∧ showsDirection (getSortIcon c2 s))) ∧
  (col_key c1 ≠ col_key c2 → isSortable c1 = true →
     ¬ showsDirection (getSortIcon c2 (handleSort c1 s))) ∧
  (col_key c1 = col_key c2 → isSortable c1 = true → isSortable c2 = true →
     getSortIcon c1 s = getSortIcon c2 s).
Proof.
  unfold showsDirection, getSortIcon, handleSort. split_and!.
  - intros Hne [H1 H2]. destruct H1 as [H1|H1], H2 as [H2|H2]; revert H1 H2;
      destruct (isSortable c1), (isSortable c2); simpl; try done;
      destruct (sortState s) as [[k d]|]; simpl; try done;
      repeat case_bool_decide; simpl; try done; congruence.
  - intros Hne ->. simpl. intros Hdir.
    destruct Hdir as [Hdir|Hdir]; revert Hdir;
      destruct (isSortable c2); simpl; try done;
      destruct (sortState s) as [[k d]|]; simpl;
      repeat case_bool_decide; simpl; try done;
      destruct d; simpl; repeat case_bool_decide; simpl; try done; congruence.
  - intros Heq -> ->. simpl. by rewrite Heq.
Qed.

Lemma one_direction_per_key_witness :
  let id := sortableColumn "id" "ID" in
  let name := sortableColumn "name" "Name" in
  ¬ showsDirection (getSortIcon name (handleSort id initialState)).
Proof.
  intros id name.
  by apply (one_direction_per_key id name initialState).
Defined.

(** ** Row identity *)

Lemma getRowKey_positional rk r i :
  ¬ identityOfRecord rk → getRowKey rk r i = pretty i.
Proof.
  destruct rk as [[field|fn]|]; simpl; [|tauto|done].
  intros Hno. by rewrite decide_True by (by destruct (decide (field = ""))).
Qed.

Lemma getRowKey_ofRecord rk r i j :
  identityOfRecord rk → getRowKey rk r i = getRowKey rk r j.
Proof.
  destruct rk as [[field|fn]|]; simpl; [|done..].
  intros Hne. by rewrite !decide_False.
Qed.

Lemma rowKeys_positional rk (view : list DataRecord) :
  ¬ identityOfRecord rk → rowKeys rk view = pretty <$> seq 0 (length view).
Proof.
  intros Hno. unfold rowKeys. rewrite <-imap_seq_0.
  apply imap_ext. intros i r _. by apply getRowKey_positional.
Qed.

Lemma rowKeys_ofRecord rk (view : list DataRecord) :
  identityOfRecord rk → rowKeys rk view = (λ r, getRowKey rk r 0) <$> view.
Proof.
  intros Hrec. unfold rowKeys. rewrite <-imap_const.
  apply imap_ext. intros i r _. by apply getRowKey_ofRecord.
Qed.

Lemma rowKeys_NoDup_perm rk (v v' : list DataRecord) :
  v ≡ₚ v' → NoDup (rowKeys rk v) → NoDup (rowKeys rk v').
Proof.
  intros E. destruct (decide (identityOfRecord rk)) as [Hrec|Hpos].
  - rewrite !rowKeys_ofRecord by done. by rewrite E.
  - rewrite !rowKeys_positional by done. by rewrite (Permutation_length E).
Qed.

(** X10: without a [rowKey] prop, or with the empty field name, the
    identity of a row is its position in the view in decimal, so the
    identities of the rows are pairwise different whatever the records
    hold. *)
Theorem positional_identities_distinct (rk : option RowKey)
  (view : list DataRecord) :
  ¬ identityOfRecord rk →
  NoDup (rowKeys rk view) ∧
  ∀ i r, view !! i = Some r → getRowKey rk r i = pretty i.
Proof.
  intros Hpos. split.
  - rewrite rowKeys_positional by done.
    apply (NoDup_fmap_2 _), NoDup_seq.
  - intros i r _. by apply getRowKey_positional.
Qed.

Lemma positional_identities_distinct_witness :
  NoDup (rowKeys (Some (RowKeyField "")) tiedRows).
Proof.
  apply (positional_identities_distinct (Some (RowKeyField "")) tiedRows).
  simpl. tauto.
Defined.

Section IdentityFacts.
Context {collator : Collator}.

Lemma selectedFlags_lookup p s i :
  loading p = false → data p ≠ [] →
  selectedFlags p s !! i
  = (λ r, bool_decide (getRowKey (rowKey p) r i ∈ selectedRows s))
    <$> sortedData (data p) (sortState s) !! i.
Proof.
  intros Hl Hd. unfold selectedFlags, render. rewrite Hl.
  rewrite bool_decide_eq_false_2 by (by destruct (data p)).
  cbn [rows]. rewrite list_lookup_fmap, list_lookup_imap.
  by destruct (sortedData (data p) (sortState s) !! i).
Qed.

Lemma selectedFlags_Some p s i flag :
  selectedFlags p s !! i = Some flag →
  ∃ r, sortedData (data p) (sortState s) !! i = Some r ∧
       flag = bool_decide (getRowKey (rowKey p) r i ∈ selectedRows s).
Proof.
  destruct (loading p) eqn:Hl.
  { unfold selectedFlags, render. rewrite Hl. by rewrite lookup_nil. }
  destruct (decide (data p = [])) as [Hd|Hd].
  { unfold selectedFlags, render. rewrite Hl, Hd. simpl. by rewrite lookup_nil. }
  rewrite selectedFlags_lookup by done.
  destruct (sortedData (data p) (sortState s) !! i) as [r|]; [|done].
  intros [= <-]. by exists r.
Qed.

(** A filter that does not read the position. *)
Lemma filter_indexed_snd {A : Type} (P : A → Prop) `{∀ a, Decision (P a)}
  (f : nat → nat) (l : list A) :
  (filter (λ jx : nat * A, P jx.2) (imap (λ j x, (f j, x)) l)).*2 = filter P l.
Proof.
  revert f. induction l as [|x l IH]; intros f; [done|].
  rewrite imap_cons, !filter_cons. simpl.
  destruct (decide (P x)); simpl; [f_equal|]; apply (IH (f ∘ S)).
Qed.

Lemma selectedInViewOrder_ofRecord rk (sel : gset string) (view : list DataRecord) :
  identityOfRecord rk →
  selectedInViewOrder rk sel view = filter (λ r, getRowKey rk r 0 ∈ sel) view.
Proof.
  intros Hrec. unfold selectedInViewOrder.
  rewrite <-(filter_indexed_snd (λ r, getRowKey rk r 0 ∈ sel) id view).
  f_equal. apply list_filter_iff. intros [j x]. simpl.
  by rewrite (getRowKey_ofRecord rk x j 0).
Qed.
End IdentityFacts.

(** X11: with positional identity the selected flag of a row on screen
    is decided by its position alone: rows at the same position have
    the same flag under any two collections and sort states, as long
    as the selection set is the same.  A change of sort order or of the
    records leaves the marks where they were. *)
Theorem selection_by_position `{Collator} (p p' : Props) (s s' : State)
  (i : nat) (flag flag' : bool) :
  ¬ identityOfRecord (rowKey p) → ¬ identityOfRecord (rowKey p') →
  selectedRows s' = selectedRows s →
  selectedFlags p s !! i = Some flag →
  selectedFlags p' s' !! i = Some flag' →
  flag' = flag ∧ flag = bool_decide (pretty i ∈ selectedRows s).
Proof.
  intros Hp Hp' Hsel (r & _ & ->)%selectedFlags_Some (r' & _ & ->)%selectedFlags_Some.
  by rewrite !getRowKey_positional, Hsel.
Qed.

Lemma selection_by_position_witness :
  let s := {| sortState := None; selectedRows := {[ "0" ]}; selectAll := false |} in
  let s' := handleSort (sortableColumn "name" "Name") s in
  true = true ∧ true = bool_decide (pretty 0%nat ∈ selectedRows s).
Proof.
  intros s s'.
  apply (selection_by_position (H := codepointCollator)
           (App {| selectedUsers := []; currentPage := 1 |})
           (App {| selectedUsers := []; currentPage := 2 |}) s s' 0).
  - simpl. tauto.
  - simpl. tauto.
  - reflexivity.
  - vm_compute. reflexivity.
  - vm_compute. reflexivity.
Defined.

(** X12: with an identity read from the record (a [rowKey] function or
    a non-empty field name) the records the callback receives for a
    selection set are, whatever the sort state, the records of the
    input whose identity is in the set, each as often as in the input:
    a change of sort order changes their order only. *)
Theorem selection_follows_records `{Collator} (rk : option RowKey)
  (sel : gset string) (rows0 : list DataRecord) (st : option SortState) :
  identityOfRecord rk →
  selectedInViewOrder rk sel (sortedData rows0 st)
  ≡ₚ selectedInViewOrder rk sel rows0 ∧
  ∀ r, r ∈ selectedInViewOrder rk sel (sortedData rows0 st) ↔
       r ∈ rows0 ∧ getRowKey rk r 0 ∈ sel.
Proof.
  intros Hrec. rewrite !selectedInViewOrder_ofRecord by done.
  assert (sortedData rows0 st ≡ₚ rows0) as E.
  { destruct st; simpl; [apply arraySort_perm|done]. }
  split; [by rewrite E|].
  intros r. rewrite list_elem_of_filter, E. tauto.
Qed.

Lemma selection_follows_records_witness :
  selectedInViewOrder (Some (RowKeyField "id")) {[ "2" ]}
    (sortedData (collator := codepointCollator) scenarioRows
       (Some {| key := "name"; direction := asc |}))
  ≡ₚ selectedInViewOrder (Some (RowKeyField "id")) {[ "2" ]} scenarioRows.
Proof.
  apply (selection_follows_records (H := codepointCollator)
           (Some (RowKeyField "id")) {[ "2" ]} scenarioRows).
  simpl. done.
Defined.

(** ** The header checkbox *)

Section HeaderCheckbox.
Context {collator : Collator}.

Lemma viewKeys_size p s :
  NoDup (rowKeys (rowKey p) (data p)) →
  size (viewKeys p s) = length (sortedData (data p) (sortState s)).
Proof.
  intros Hnd. unfold viewKeys. rewrite size_list_to_set.
  - unfold rowKeys. by rewrite length_imap.
  - eapply rowKeys_NoDup_perm; [|exact Hnd]. symmetry. apply sortedData_perm.
Qed.

Lemma viewKeys_nonempty p s : data p ≠ [] → viewKeys p s ≠ ∅.
Proof.
  intros Hd Hempty.
  destruct (sortedData (data p) (sortState s)) as [|r view] eqn:Hview.
  - apply Hd. apply Permutation_nil_r. rewrite <-Hview.
    symmetry. apply sortedData_perm.
  - assert (getRowKey (rowKey p) r 0 ∈ viewKeys p s) as Hin.
    { apply elem_of_viewKeys. by rewrite Hview. }
    rewrite Hempty in Hin. set_solver.
Qed.

Lemma perform_flagTracks p0 c a c' :
  data p0 ≠ [] → NoDup (rowKeys (rowKey p0) (data p0)) →
  sameRows p0 c.1 →
  match a with User _ => True | Parent p' => sameRows p0 p' end →
  selectedRows c.2 ⊆ viewKeys c.1 c.2 →
  flagTracks c.1 c.2 →
  perform c a = Some c' →
  flagTracks c'.1 c'.2.
Proof.
  intros Hd Hnd Hsame Ha Hin Hflag Hstep.
  destruct (perform_within_view p0 c a c' Hsame Ha Hin Hstep) as [Hsame' Hin'].
  destruct c as [p s]. simpl in *. destruct Hsame as [Hdata Hkey].
  assert (data p ≠ []) as Hd' by congruence.
  assert (NoDup (rowKeys (rowKey p) (data p))) as Hnd' by (by rewrite Hdata, Hkey).
  destruct a as [e|p']; simpl in Hstep.
  - destruct (dispatch p s e) as [[s' calls]|] eqn:Hdis; [|done].
    injection Hstep as <-. simpl in *.
    apply dispatch_Some in Hdis as (_ & _ & He).
    destruct e as [column|i checked|checked].
    + destruct He as [_ [= -> _]]. unfold flagTracks in *.
      rewrite (viewKeys_sameRows p p s (handleSort column s)) by done.
      unfold handleSort. by destruct (negb (isSortable column)).
    + destruct He as (_ & r & Hi & E).
      assert (selectAll s'
              = bool_decide (size (selectedRows s')
                             = length (sortedData (data p) (sortState s)))
              ∧ sortState s' = sortState s) as [Hall Hst].
      { revert E. unfold handleRowSelect.
        by destruct (onRowSelect p); intros [= -> _]. }
      unfold flagTracks. rewrite Hall, bool_decide_eq_true.
      rewrite <-(viewKeys_size p s) by done.
      rewrite (viewKeys_sameRows p p s s') in Hin' |- * by done.
      split.
      * intros Hsize. apply set_subseteq_size_eq; [done|]. by rewrite Hsize.
      * by intros ->.
    + destruct He as [_ E]. unfold flagTracks. revert E. unfold handleSelectAll.
      destruct checked; intros [= -> _]; simpl.
      * by rewrite (viewKeys_sameRows p p s _).
      * split; [done|]. intros Hempty. symmetry in Hempty.
        by apply viewKeys_nonempty in Hempty.
  - injection Hstep as <-. simpl in *. destruct Ha as [Hdata' Hkey'].
    unfold flagTracks in *.
    rewrite (viewKeys_sameRows p p' s s); [done|congruence..].
Qed.

Lemma run_flagTracks p0 actions c c' :
  data p0 ≠ [] → NoDup (rowKeys (rowKey p0) (data p0)) →
  sameRows p0 c.1 →
  keepsRows p0 actions →
  selectedRows c.2 ⊆ viewKeys c.1 c.2 →
  flagTracks c.1 c.2 →
  run c actions = Some c' →
  flagTracks c'.1 c'.2.
Proof.
  intros Hd Hnd Hsame Hkeeps. revert c Hsame.
  induction Hkeeps as [|a actions Ha _ IH]; intros c Hsame Hin Hflag; simpl.
  - by intros [= <-].
  - destruct (perform c a) as [c1|] eqn:Hstep; [|done].
    destruct (perform_within_view p0 c a c1) as [Hsame1 Hin1]; auto.
    apply IH; [done..|]. by apply (perform_flagTracks p0 c a c1).
Qed.
End HeaderCheckbox.

(** X13: while the parent keeps a non-empty record collection whose
    rows have pairwise different identities, the header checkbox is
    checked in exactly those reachable states in which the selection
    set is the set of identities of the rows of the view. *)
Theorem header_checkbox_tracks_selection `{Collator} (p0 : Props)
  (actions : list Action) (p : Props) (s : State) :
  data p0 ≠ [] →
  NoDup (rowKeys (rowKey p0) (data p0)) →
  keepsRows p0 actions →
  run (p0, initialState) actions = Some (p, s) →
  selectAll s = true ↔ selectedRows s = viewKeys p s.
Proof.
  intros Hd Hnd Hkeeps Hrun.
  apply (run_flagTracks p0 actions (p0, initialState) (p, s)); try done.
  unfold flagTracks. simpl. split; [done|].
  intros Hempty. symmetry in Hempty. by apply viewKeys_nonempty in Hempty.
Qed.

Lemma header_checkbox_tracks_selection_witness :
  let s := {| sortState := None; selectedRows := {[ "1"; "2" ]};
              selectAll := true |} in
  selectAll s = true ↔
  selectedRows s = viewKeys (H := codepointCollator) (propsOf tiedRows) s.
Proof.
  intros s.
  apply (header_checkbox_tracks_selection (H := codepointCollator)
           (propsOf tiedRows)
           [User (RowCheckbox 0 true); User (RowCheckbox 1 true)]).
  - done.
  - apply (bool_decide_unpack _). vm_compute. exact I.
  - repeat constructor.
  - vm_compute. reflexivity.
Defined.

Section CallbackFacts.
Context {A B : Type} `{EqDecision B}.

Lemma filter_all (P : A → Prop) `{∀ a, Decision (P a)} l :
  Forall P l → filter P l = l.
Proof. induction 1; [done|]. rewrite filter_cons_True by done. by f_equal. Qed.

(** Among elements with pairwise different images, one image picks one
    element. *)
Lemma filter_unique_image (f : A → B) l i x :
  NoDup (f <$> l) → l !! i = Some x → filter (λ y, f y = f x) l = [x].
Proof.
  revert i. induction l as [|y l IH]; intros i Hnd Hi.
  { by rewrite lookup_nil in Hi. }
  rewrite fmap_cons in Hnd. apply NoDup_cons in Hnd as [Hy Hnd].
  destruct i as [|i]; simpl in Hi.
  - injection Hi as ->. rewrite filter_cons_True by done. f_equal.
    apply filter_none. apply Forall_forall. intros z Hz Hfz.
    apply Hy. rewrite <-Hfz. by apply list_elem_of_fmap_2.
  - rewrite filter_cons_False; [by apply (IH i)|].
    intros Hfy. apply Hy. rewrite Hfy.
    apply list_elem_of_fmap_2. by eapply list_elem_of_lookup_2.
Qed.
End CallbackFacts.

(** X14: when the [rowKey] prop names a field that no record has, every
    row has the identity "undefined": the first click on any row
    checkbox passes the whole view to the callback, while the header
    checkbox stays unchecked as soon as there are two rows. *)
Theorem absent_identity_field_selects_all `{Collator} (p : Props) (s : State)
  (field : string) :
  rowKey p = Some (RowKeyField field) → field ≠ "" →
  Forall (λ r, r !! field = None) (data p) →
  onRowSelect p = true →
  selectedRows s = ∅ →
  let view := sortedData (data p) (sortState s) in
  let result := handleRowSelect p s "undefined" true in
  (∀ i r, view !! i = Some r → getRowKey (rowKey p) r i = "undefined") ∧
  result.2 = [view] ∧
  ((2 ≤ length (data p))%nat → selectAll result.1 = false).
Proof.
  intros Hrk Hfield Habsent Hcb Hsel view result.
  assert (∀ r i, r ∈ view → getRowKey (rowKey p) r i = "undefined") as Hkey.
  { intros r i Hr. rewrite Hrk. simpl. rewrite decide_False by done.
    unfold view in Hr. rewrite sortedData_perm in Hr.
    rewrite Forall_forall in Habsent. unfold getField.
    by rewrite (Habsent r Hr). }
  split_and!.
  - intros i r Hi. apply Hkey. by eapply list_elem_of_lookup_2.
  - subst result. unfold handleRowSelect. rewrite Hcb. fold view. simpl.
    rewrite filterIndexed_selected, selectedInViewOrder_ofRecord
      by (by rewrite Hrk).
    f_equal. apply filter_all. apply Forall_forall. intros r Hr.
    rewrite (Hkey r 0%nat Hr). set_solver.
  - intros Hlen. subst result. unfold handleRowSelect. fold view.
    assert (length view = length (data p)) as Hview.
    { unfold view. by rewrite sortedData_perm. }
    destruct (onRowSelect p); simpl; apply bool_decide_eq_false_2;
      rewrite Hsel, (left_id_L ∅ (∪)), size_singleton; lia.
Qed.

Lemma absent_identity_field_selects_all_witness :
  let p := {| data := tiedRows; columns := [nameColumn]; loading := false;
              selectable := true; onRowSelect := true;
              emptyText := "No data available";
              rowKey := Some (RowKeyField "email"); pagination := None |} in
  (handleRowSelect (collator := codepointCollator) p initialState
     "undefined" true).2 = [tiedRows].
Proof.
  intros p.
  apply (absent_identity_field_selects_all (H := codepointCollator)
           p initialState "email"); try done.
  repeat constructor.
Defined.

(** X15: when the rows of the view have pairwise different identities
    and nothing is selected, checking the box of a row passes the
    callback exactly that one record. *)
Theorem single_selection_callback `{Collator} (p : Props) (s : State)
  (i : nat) (r : DataRecord) :
  let view := sortedData (data p) (sortState s) in
  NoDup (rowKeys (rowKey p) view) →
  view !! i = Some r →
  selectedRows s = ∅ →
  onRowSelect p = true →
  (handleRowSelect p s (getRowKey (rowKey p) r i) true).2 = [[r]].
Proof.
  intros view Hnd Hi Hsel Hcb. unfold handleRowSelect. rewrite Hcb. fold view.
  simpl. rewrite filterIndexed_selected. do 2 f_equal.
  unfold selectedInViewOrder.
  set (keyOf := λ jx : nat * DataRecord, getRowKey (rowKey p) jx.2 jx.1).
  rewrite (list_filter_iff _ (λ jx, keyOf jx = keyOf (i, r))).
  - rewrite (filter_unique_image keyOf _ i (i, r)); [done| |].
    + unfold rowKeys in Hnd. by rewrite fmap_imap.
    + rewrite list_lookup_imap, Hi. done.
  - intros jx. rewrite Hsel. unfold keyOf. simpl. set_solver.
Qed.

Lemma single_selection_callback_witness :
  (handleRowSelect (collator := codepointCollator) (propsOf scenarioRows)
     initialState "1" true).2 = [[idName 1 (VStr "a")]].
Proof.
  apply (single_selection_callback (H := codepointCollator)
           (propsOf scenarioRows) initialState 1 (idName 1 (VStr "a"))).
  - apply (bool_decide_unpack _). vm_compute. exact I.
  - reflexivity.
  - reflexivity.
  - reflexivity.
Defined.

(** X16: checking a row and then unchecking it removes its identity
    from the set and leaves every other identity as it was, so the
    selection is restored exactly when the row was not selected
    before; checking a row twice is the same as checking it once. *)
Theorem check_then_uncheck `{Collator} (p : Props) (s : State) (k : string) :
  let s1 := (handleRowSelect p s k true).1 in
  let s2 := (handleRowSelect p s1 k false).1 in
  selectedRows s2 = selectedRows s ∖ {[ k ]} ∧
  (k ∉ selectedRows s → selectedRows s2 = selectedRows s) ∧
  selectedRows (handleRowSelect p s1 k true).1 = selectedRows s1 ∧
  sortState s2 = sortState s.
Proof.
  intros s1 s2. subst s1 s2. unfold handleRowSelect.
  destruct (onRowSelect p); simpl; split_and!; try done; set_solver.
Qed.

Lemma check_then_uncheck_witness :
  selectedRows
    (handleRowSelect (collator := codepointCollator) (propsOf scenarioRows)
       (handleRowSelect (collator := codepointCollator) (propsOf scenarioRows)
          initialState "2" true).1 "2" false).1
  = selectedRows initialState.
Proof.
  apply (check_then_uncheck (H := codepointCollator) (propsOf scenarioRows)
           initialState "2").
  simpl. set_solver.
Defined.

(** ** What is on screen *)

(** X17: [loading] wins over everything and an empty collection comes
    next: in both cases nothing of the table is on screen, no event
    reaches a handler and there are no pagination buttons, even when a
    descriptor was passed.  Otherwise the table shows one row per
    record of the input, in the order of the sorted view (the component
    never slices), and the header checkbox shows the all-selected
    flag. *)
Theorem render_cases `{Collator} (p : Props) (s : State) :
  (loading p = true →
     render p s = RenderLoading ∧
     (∀ e, dispatch p s e = None) ∧ ∀ next, paginationClick p s next = None) ∧
  (loading p = false → data p = [] →
     render p s = RenderEmpty (emptyText p) ∧
     (∀ e, dispatch p s e = None) ∧ ∀ next, paginationClick p s next = None) ∧
  (loading p = false → data p ≠ [] →
     ∃ t, render p s = RenderTable t ∧
          rowRecord <$> rows t = sortedData (data p) (sortState s) ∧
          length (rows t) = length (data p) ∧
          headers t = columns p ∧
          headerCheckbox t = (if selectable p then Some (selectAll s) else None)).
Proof.
  split_and!.
  - intros Hl. unfold dispatch, paginationClick, render. by rewrite Hl.
  - intros Hl Hd. unfold dispatch, paginationClick, render. by rewrite Hl, Hd.
  - intros Hl Hd. unfold render. rewrite Hl.
    rewrite bool_decide_eq_false_2 by (by destruct (data p)).
    eexists. split; [done|]. cbn [rows headers headerCheckbox]. split_and!; try done.
    + rewrite fmap_imap. simpl.
      rewrite (imap_const id). apply list_fmap_id.
    + by rewrite length_imap, sortedData_perm.
Qed.

Lemma render_cases_witness :
  render (collator := codepointCollator)
    {| data := scenarioRows; columns := [nameColumn]; loading := true;
       selectable := true; onRowSelect := true; emptyText := "No data available";
       rowKey := None;
       pagination := Some {| current := 1; pageSize := 2; total := 3 |} |}
    initialState = RenderLoading.
Proof.
  by apply (render_cases (H := codepointCollator)
              {| data := scenarioRows; columns := [nameColumn]; loading := true;
                 selectable := true; onRowSelect := true;
                 emptyText := "No data available"; rowKey := None;
                 pagination := Some {| current := 1; pageSize := 2; total := 3 |} |}
              initialState).
Defined.

Lemma pretty_N_go_nonempty x s : s ≠ "" → pretty_N_go x s ≠ "".
Proof.
  revert s. induction (N.lt_wf_0 x) as [x _ IH]; intros s Hs.
  destruct (decide (x = 0)%N) as [->|Hx]; [by rewrite pretty_N_go_0|].
  rewrite pretty_N_go_step by lia. apply IH; [|done].
  apply N.div_lt; lia.
Qed.

Lemma pretty_Z_nonempty (n : Z) : pretty n ≠ "".
Proof.
  assert (∀ x : positive, pretty x ≠ "") as Hpos.
  { intros x. unfold pretty, pretty_positive, pretty, pretty_N.
    rewrite decide_False by lia. rewrite pretty_N_go_step by lia.
    by apply pretty_N_go_nonempty. }
  destruct n as [|x|x]; [done|apply Hpos|done].
Qed.

(** X18: a cell of a column without a [render] function whose field
    (the one named by [dataIndex]) holds a primitive value, that is
    [null], [undefined], a boolean, a number or a string, is the empty
    text exactly when the value is [null], [undefined] or the empty
    string; a field the record does not have gives the empty text.
    Objects show what their own [toString] yields and are left out. *)
Theorem default_cell_empty (column : Column) (record : DataRecord) (index : nat) :
  let value := getField record (col_dataIndex column) in
  (isPrimitive value →
     (renderCell column None record index = TextNode "" ↔
        isNullish value = true ∨ value = VStr "")) ∧
  (record !! col_dataIndex column = None →
     renderCell column None record index = TextNode "").
Proof.
  intros value. unfold renderCell, looseNotNull. fold value. split.
  - destruct value as [| |b|n|str|ref]; simpl; intros Hprim.
    + split; [by left|done].
    + split; [by left|done].
    + destruct b; (split; [done|intros [|]; done]).
    + split; [intros [= Hn]|intros [|]; done]. by destruct (pretty_Z_nonempty n).
    + split; [intros [= ->]; by right|]. by intros [|[= ->]].
    + done.
  - intros Hnone. subst value. unfold getField. by rewrite Hnone.
Qed.

Lemma default_cell_empty_witness :
  renderCell nameColumn None (idName 3 VNull) 2 = TextNode "".
Proof.
  destruct (default_cell_empty nameColumn (idName 3 VNull) 2) as [Hempty _].
  apply Hempty; [exact I|by left].
Defined.

(** ** Pagination buttons *)

(** X19: for a descriptor whose page lies between 1 and the page count,
    a button that is enabled asks for a page in that range and passes
    the page size on unchanged; Next is disabled exactly on the last
    page and Previous exactly on page 1; and going to the page one
    button asks for and pressing the other button there asks for the
    page one came from. *)
Theorem pagination_clicks_stay_in_range (pg : Pagination) :
  0 < pageSize pg → 0 ≤ total pg →
  1 ≤ current pg ≤ ceilDiv (total pg) (pageSize pg) →
  let count := ceilDiv (total pg) (pageSize pg) in
  let at_ page := {| current := page; pageSize := pageSize pg; total := total pg |} in
  (∀ page size, clickNext pg = Some (page, size) →
     1 ≤ page ≤ count ∧ size = pageSize pg ∧
     clickPrevious (at_ page) = Some (current pg, pageSize pg)) ∧
  (∀ page size, clickPrevious pg = Some (page, size) →
     1 ≤ page ≤ count ∧ size = pageSize pg ∧
     clickNext (at_ page) = Some (current pg, pageSize pg)) ∧
  (clickNext pg = None ↔ current pg = count) ∧
  (clickPrevious pg = None ↔ current pg = 1).
Proof.
  intros Hs Ht Hc count at_. unfold clickNext, clickPrevious. simpl.
  fold count. split_and!.
  - intros page size. case_bool_decide as Hlast; [done|]. intros [= <- <-].
    split_and!; [lia|lia|done|].
    rewrite bool_decide_eq_false_2 by lia. do 2 f_equal. lia.
  - intros page size. case_bool_decide as Hfirst; [done|]. intros [= <- <-].
    split_and!; [lia|lia|done|].
    rewrite bool_decide_eq_false_2 by lia. do 2 f_equal. lia.
  - case_bool_decide; split; try done; lia.
  - case_bool_decide; split; try done; lia.
Qed.

Lemma pagination_clicks_stay_in_range_witness :
  clickNext {| current := 3; pageSize := 2; total := 5 |} = None ↔ 3 = 3.
Proof.
  assert (ceilDiv 5 2 = 3) as E by reflexivity.
  pose proof (pagination_clicks_stay_in_range
                {| current := 3; pageSize := 2; total := 5 |}
                ltac:(simpl; lia) ltac:(simpl; lia)
                ltac:(simpl; rewrite E; lia)) as (_ & _ & Hnext & _).
  simpl in Hnext. by rewrite E in Hnext.
Defined.

(** ** The paging caller *)

Section Paging.
Context {A : Type}.

(** With a first index that is not negative, [slice] is [take] after
    [drop]. *)
Lemma slice_take_drop (start count : Z) (l : list A) :
  0 ≤ start → 0 ≤ count →
  slice start (start + count) l
  = take (Z.to_nat count) (drop (Z.to_nat start) l).
Proof.
  intros Hstart Hcount. unfold slice, clampIndex.
  rewrite !decide_False by lia.
  destruct (decide (Z.of_nat (length l) ≤ start)) as [Hout|Hin].
  - rewrite !Z.min_r by lia. rewrite Z.sub_diag. simpl.
    rewrite (drop_ge l (Z.to_nat start)) by lia. by rewrite take_nil.
  - rewrite (Z.min_l start) by lia.
    destruct (decide (start + count ≤ Z.of_nat (length l))) as [Hfits|Hover].
    + rewrite Z.min_l by lia. f_equal. lia.
    + rewrite Z.min_r by lia.
      rewrite !take_ge; [done|rewrite length_drop; lia..].
Qed.

(** Consecutive chunks that cover the list give the list back. *)
Lemma concat_chunks (size n : nat) (l : list A) :
  (length l ≤ n * size)%nat →
  concat ((λ c, take size (drop (c * size) l)) <$> seq 0 n) = l.
Proof.
  revert l. induction n as [|n IH]; intros l Hlen.
  - simpl in *. by destruct l; [|simpl in Hlen; lia].
  - rewrite <-cons_seq, fmap_cons, concat_cons. simpl.
    rewrite <-fmap_S_seq, <-list_fmap_compose.
    transitivity (take size l ++ drop size l); [|apply take_drop].
    f_equal.
    etrans; [|apply (IH (drop size l)); rewrite length_drop; lia].
    f_equal. apply list_fmap_ext. intros _ c _. simpl.
    by rewrite drop_drop.
Qed.
End Paging.

Lemma paginatedData_take_drop (users : list DataRecord) (perPage page : Z) :
  0 < perPage → 1 ≤ page →
  paginatedData users perPage page
  = take (Z.to_nat perPage) (drop (Z.to_nat ((page - 1) * perPage)) users).
Proof.
  intros Hsize Hpage. unfold paginatedData.
  replace (page * perPage) with ((page - 1) * perPage + perPage) by lia.
  apply slice_take_drop; nia.
Qed.

(** X20: the pages the caller cuts partition the collection: for a page
    size above 0 the rows of the pages 1 to [ceil(length / pageSize)],
    one after the other, are the collection, nothing lost, nothing
    twice. *)
Theorem pages_partition_users (users : list DataRecord) (perPage : Z) :
  0 < perPage →
  concat ((λ page : nat, paginatedData users perPage (Z.of_nat page))
            <$> seq 1 (Z.to_nat (ceilDiv (Z.of_nat (length users)) perPage)))
  = users.
Proof.
  intros Hsize.
  pose proof (ceilDiv_spec (Z.of_nat (length users)) perPage Hsize) as [_ Hceil].
  set (n := Z.to_nat (ceilDiv (Z.of_nat (length users)) perPage)).
  etrans; [|apply (concat_chunks (Z.to_nat perPage) n users); subst n; nia].
  f_equal. rewrite <-fmap_S_seq, <-list_fmap_compose.
  apply list_fmap_ext. intros _ c _. simpl.
  rewrite paginatedData_take_drop by lia. do 2 f_equal. nia.
Qed.

Lemma pages_partition_users_witness :
  concat ((λ page : nat, paginatedData sampleUsers 3 (Z.of_nat page))
            <$> seq 1 (Z.to_nat (ceilDiv (Z.of_nat (length sampleUsers)) 3)))
  = sampleUsers.
Proof. apply (pages_partition_users sampleUsers 3). lia. Defined.

(** X21: on a page between 1 and the page count the caller hands the
    table a collection that is not empty, that has as many rows as the
    range "Showing from to to" of the pagination block counts, and
    whose rows are the entries of the full collection at the positions
    of that range. *)
Theorem page_rows_match_range (users : list DataRecord) (cols : list Column)
  (perPage : Z) (a : AppState) :
  0 < perPage →
  1 ≤ currentPage a ≤ ceilDiv (Z.of_nat (length users)) perPage →
  let p := pagedProps users cols perPage a in
  let pg := {| current := currentPage a; pageSize := perPage;
               total := Z.of_nat (length users) |} in
  let v := renderPagination pg in
  pagination p = Some pg ∧
  data p ≠ [] ∧
  Z.of_nat (length (data p)) = showingTo v - showingFrom v + 1 ∧
  ∀ j r, data p !! j = Some r →
         users !! (Z.to_nat (showingFrom v - 1) + j)%nat = Some r.
Proof.
  intros Hsize Hpage p pg v.
  pose proof (ceilDiv_spec (Z.of_nat (length users)) perPage Hsize) as [Hlow _].
  assert ((currentPage a - 1) * perPage < Z.of_nat (length users)) as Hstart by nia.
  assert (data p = take (Z.to_nat perPage)
                     (drop (Z.to_nat ((currentPage a - 1) * perPage)) users)) as E.
  { apply paginatedData_take_drop; lia. }
  assert (Z.of_nat (length (data p)) = showingTo v - showingFrom v + 1) as Hlen.
  { rewrite E, length_take, length_drop. simpl. nia. }
  split_and!; [done| |done|].
  - intros Hnil. rewrite Hnil in Hlen. simpl in Hlen. nia.
  - intros j r. rewrite E. intros [Hj _]%lookup_take_Some.
    rewrite lookup_drop in Hj. simpl.
    by replace ((currentPage a - 1) * perPage + 1 - 1)
      with ((currentPage a - 1) * perPage) by lia.
Qed.

Lemma page_rows_match_range_witness :
  let p := App {| selectedUsers := []; currentPage := 2 |} in
  Z.of_nat (length (data p)) = 5 - 4 + 1.
Proof.
  intros p.
  assert (ceilDiv (Z.of_nat (length sampleUsers)) 3 = 2) as E by reflexivity.
  destruct (page_rows_match_range sampleUsers userColumns 3
              {| selectedUsers := []; currentPage := 2 |}
              ltac:(lia) ltac:(simpl currentPage; rewrite E; lia))
    as (_ & _ & Hlen & _).
  exact Hlen.
Defined.

Section CallerFacts.
Context {collator : Collator}.

Lemma slice_subseteq {A : Type} (start finish : Z) (l : list A) :
  slice start finish l ⊆ l.
Proof.
  unfold slice. etrans; [apply subseteq_take|apply subseteq_drop].
Qed.

(** What a handler passes to the callback are rows of the input. *)
Lemma dispatch_calls p s e s' calls :
  dispatch p s e = Some (s', calls) → Forall (λ rows, rows ⊆ data p) calls.
Proof.
  intros Hd. apply dispatch_Some in Hd as (_ & _ & He).
  assert (∀ rows, rows `sublist_of` sortedData (data p) (sortState s) →
                  rows ⊆ data p) as Hsub.
  { intros rows Hrows%sublist_subseteq r Hr%Hrows. by rewrite sortedData_perm in Hr. }
  destruct e as [column|i checked|checked].
  - by destruct He as [_ [= _ ->]].
  - destruct He as (_ & r & _ & E). revert E. unfold handleRowSelect.
    destruct (onRowSelect p); intros [= _ ->]; repeat constructor.
    apply Hsub, filterFrom_sublist.
  - destruct He as [_ E]. revert E. unfold handleSelectAll.
    destruct checked, (onRowSelect p); intros [= _ ->]; repeat constructor;
      try (by apply Hsub); set_solver.
Qed.

Lemma last_call_subseteq (users : list DataRecord) init calls :
  init ⊆ users → Forall (λ rows : list DataRecord, rows ⊆ users) calls →
  foldl (λ _ rows, rows) init calls ⊆ users.
Proof.
  intros Hinit Hcalls. revert init Hinit.
  induction Hcalls as [|rows calls Hrows _ IH]; intros init Hinit; simpl; auto.
Qed.

(** The page stays in range and the selected users stay users. *)
Lemma pagedStep_inv users cols perPage c e c' :
  0 < perPage →
  1 ≤ currentPage c.1 ≤ Z.max 1 (ceilDiv (Z.of_nat (length users)) perPage) →
  selectedUsers c.1 ⊆ users →
  pagedStep users cols perPage c e = Some c' →
  1 ≤ currentPage c'.1 ≤ Z.max 1 (ceilDiv (Z.of_nat (length users)) perPage) ∧
  selectedUsers c'.1 ⊆ users.
Proof.
  intros Hsize Hpage Hsel. destruct c as [a s]. simpl in *.
  unfold pagedStep. simpl. destruct e as [ev| |].
  - destruct (dispatch _ s ev) as [[s' calls]|] eqn:Hd; [|done].
    intros [= <-]. simpl. split; [done|].
    apply last_call_subseteq; [done|].
    apply dispatch_calls in Hd. eapply Forall_impl; [exact Hd|].
    intros rows Hrows. simpl in Hrows. etrans; [exact Hrows|].
    apply slice_subseteq.
  - unfold paginationClick. destruct (render _ s); try done. simpl.
    unfold clickPrevious. simpl. case_bool_decide; [done|].
    intros [= <-]. simpl. split; [lia|done].
  - unfold paginationClick. destruct (render _ s); try done. simpl.
    unfold clickNext. simpl. case_bool_decide; [done|].
    intros [= <-]. simpl. split; [lia|done].
Qed.
End CallerFacts.

(** X22: whatever the user clicks in the table and on the two buttons,
    starting on page 1 a paging caller with a page size above 0 stays
    on a page between 1 and the page count, its list of selected users
    holds users of the collection only, and when the collection is not
    empty the table it renders is never empty. *)
Theorem paging_stays_in_range `{Collator} (users : list DataRecord)
  (cols : list Column) (perPage : Z) (events : list AppEvent)
  (a : AppState) (s : State) :
  0 < perPage →
  pagedRun users cols perPage (appInitial, initialState) events = Some (a, s) →
  1 ≤ currentPage a ≤ Z.max 1 (ceilDiv (Z.of_nat (length users)) perPage) ∧
  selectedUsers a ⊆ users ∧
  (users ≠ [] → data (pagedProps users cols perPage a) ≠ []).
Proof.
  intros Hsize Hrun.
  assert (1 ≤ currentPage a ≤ Z.max 1 (ceilDiv (Z.of_nat (length users)) perPage)
          ∧ selectedUsers a ⊆ users) as [Hpage Hsel].
  { revert Hrun.
    assert (1 ≤ currentPage (appInitial, initialState).1
              ≤ Z.max 1 (ceilDiv (Z.of_nat (length users)) perPage)) as Hp0
      by (simpl; lia).
    assert (selectedUsers (appInitial, initialState).1 ⊆ users) as Hs0
      by (simpl; set_solver).
    revert Hp0 Hs0. generalize (appInitial, initialState).
    induction events as [|e events IH]; intros c Hp Hs; simpl.
    - by intros [= ->].
    - destruct (pagedStep users cols perPage c e) as [c1|] eqn:Hstep; [|done].
      destruct (pagedStep_inv users cols perPage c e c1) as [Hp1 Hs1]; auto.
      by apply IH. }
  split; [done|]. split; [done|]. intros Hne.
  pose proof (ceilDiv_spec (Z.of_nat (length users)) perPage Hsize) as [_ Hup].
  assert (0 < Z.of_nat (length users)) by (destruct users; [done|simpl; lia]).
  apply (page_rows_match_range users cols perPage a Hsize). nia.
Qed.

Lemma paging_stays_in_range_witness :
  1 ≤ 2 ≤ Z.max 1 (ceilDiv (Z.of_nat (length sampleUsers)) 3).
Proof.
  apply (paging_stays_in_range (H := codepointCollator) sampleUsers userColumns 3
           [TableEvent (RowCheckbox 0 true); NextClick]
           {| selectedUsers := [user 1 "John Doe" "john@example.com" "Admin"
                                  "active" "2024-01-15"];
              currentPage := 2 |}
           {| sortState := None; selectedRows := {[ "0" ]}; selectAll := false |}).
  - lia.
  - vm_compute. reflexivity.
Defined.
